(** * Writable signals and the injection-context bridge

    A shallow embedding of two pieces of the framework core:

    - [runInInjectionContext] and [assertInInjectionContext]
      (packages/core/src/di/contextual.ts), and
    - [WritableSignalImpl] with its [signal] factory
      (packages/core/src/signals/src/signal.ts).

    JavaScript statements are written in a state-and-exception monad over an
    explicit record of the module-level variables and of the objects the code
    touches.  A thrown exception keeps the state reached so far, as in
    JavaScript. *)

From Stdlib Require Import ZArith List Bool Lia.
From stdpp Require Import base option list gmap strings.

Local Open Scope Z_scope.

(** ** Completions and the monad shared by both parts *)

Section Completion.
Context {X : Type}.

(** How a JavaScript call completes: normally with a value, or abruptly
    with a thrown value of type [X]. *)
Inductive Outcome (A : Type) : Type :=
| Returned (a : A)
| Threw (x : X).

Global Arguments Returned {A} a.
Global Arguments Threw {A} x.

Definition M (W A : Type) : Type := W -> W * Outcome A.

Definition ret {W A} (a : A) : M W A := fun w => (w, Returned a).

Definition throw {W A} (x : X) : M W A := fun w => (w, Threw x).

Definition bind {W A B} (c : M W A) (k : A -> M W B) : M W B :=
  fun w =>
    match c w with
    | (w1, Returned a) => k a w1
    | (w1, Threw x) => (w1, Threw x)
    end.

Definition gets {W A} (f : W -> A) : M W A := fun w => (w, Returned (f w)).

Definition modify {W} (f : W -> W) : M W unit := fun w => (f w, Returned tt).

(** [try { body } finally { fin }]: [fin] runs on every exit path of
    [body]; when [fin] completes normally the completion of [body] is
    the completion of the whole statement, otherwise the completion of
    [fin] replaces it. *)
Definition try_finally {W A} (body : M W A) (fin : M W unit) : M W A :=
  fun w =>
    match body w with
    | (w1, r) =>
        match fin w1 with
        | (w2, Returned _) => (w2, r)
        | (w2, Threw x) => (w2, Threw x)
        end
    end.
End Completion.

Arguments Outcome X A : clear implicits.
Arguments M X W A : clear implicits.

Notation "x <- c ;; k" := (bind c (fun x => k))
  (at level 100, c at next level, right associativity).
Notation "c ;; k" := (bind c (fun _ => k))
  (at level 100, right associativity).

(** ** Part 1: the injection-context bridge (di/contextual.ts) *)

Module Injection.

(** The members of [RuntimeErrorCode] that this file raises. *)
Inductive RuntimeErrorCode : Set :=
| MISSING_INJECTION_CONTEXT
| INJECTOR_ALREADY_DESTROYED.

(** The second argument of [new RuntimeError(code, message)].  The
    expression [ngDevMode && (text)] is the text when [ngDevMode] is
    truthy and the falsy [ngDevMode] itself otherwise. *)
Inductive ErrorMessage : Set :=
| NoMessage
| Message (text : string).

Inductive Thrown : Set :=
| RuntimeError (code : RuntimeErrorCode) (message : ErrorMessage)
| UserThrown (payload : nat).

(** An [Injector] object: its identity, whether it is an instance of
    [R3Injector], and the destroyed flag that [assertNotDestroyed]
    inspects. *)
Record Injector : Set := mkInjector {
  injectorId : nat;
  isR3Injector : bool;
  destroyed : bool
}.

(** The module variable behind [getCurrentInjector]/[setCurrentInjector]:
    [Injector | undefined | null]. *)
Inductive InjectorSlot : Set :=
| SlotUndefined
| SlotNull
| SlotInjector (i : Injector).

(** A JavaScript function value as far as this file looks at it: its
    identity and its [name] property. *)
Record JsFunction : Set := mkJsFunction {
  functionId : nat;
  name : string
}.

Section Bridge.
(** [E] is the rest of the program state, which only the callbacks
    inspect. *)
Context {E : Type}.

Record Context : Type := mkContext {
  currentInjector : InjectorSlot;
  injectImplementation : option JsFunction;
  ngDevMode : bool;
  outside : E
}.

Definition with_currentInjector (s : InjectorSlot) (c : Context) : Context :=
  mkContext s (injectImplementation c) (ngDevMode c) (outside c).

Definition with_injectImplementation (i : option JsFunction) (c : Context)
  : Context :=
  mkContext (currentInjector c) i (ngDevMode c) (outside c).

Definition with_outside (e : E) (c : Context) : Context :=
  mkContext (currentInjector c) (injectImplementation c) (ngDevMode c) e.

Definition DI (A : Type) : Type := M Thrown Context A.

(** Truthiness of the two slots, as the [!] operator sees them. *)
Definition injector_truthy (s : InjectorSlot) : bool :=
  match s with
  | SlotInjector _ => true
  | SlotUndefined | SlotNull => false
  end.

Definition implementation_truthy (i : option JsFunction) : bool :=
  match i with
  | Some _ => true
  | None => false
  end.

(** Modelled from the spec: the accessors of the process-wide
    "current resolver" slot (di/injector_compatibility.ts is not among
    the sources).  The setter installs its argument and hands back
    what was installed before. *)
Definition getCurrentInjector : DI InjectorSlot := gets currentInjector.

Definition setCurrentInjector (injector : InjectorSlot) : DI InjectorSlot :=
  former <- gets currentInjector ;;
  modify (with_currentInjector injector) ;;
  ret former.

(** Modelled from the spec: the accessors of the "inject override"
    slot (di/inject_switch.ts is not among the sources), of the same
    shape as the ones above. *)
Definition getInjectImplementation : DI (option JsFunction) :=
  gets injectImplementation.

Definition setInjectImplementation (impl : option JsFunction)
  : DI (option JsFunction) :=
  previous <- gets injectImplementation ;;
  modify (with_injectImplementation impl) ;;
  ret previous.

(** [R3Injector.assertNotDestroyed] (di/r3_injector.ts is not among the
    sources, and the spec is silent about it).  It is taken by its
    contract: a guard that throws on a destroyed injector and does
    nothing otherwise.  The error is a [RuntimeError] whose message is
    passed as [ngDevMode && text], as at the throw site of
    [assertInInjectionContext] below: outside development mode it has no
    message text. *)
Definition assertNotDestroyed (injector : Injector) : DI unit :=
  if destroyed injector
  then
    dev <- gets ngDevMode ;;
    throw (RuntimeError INJECTOR_ALREADY_DESTROYED
             (if dev then Message "Injector has already been destroyed."
              else NoMessage))
  else ret tt.

(** [runInInjectionContext(injector, fn)]. *)
Definition runInInjectionContext {R} (injector : Injector) (fn : DI R) : DI R :=
  (if isR3Injector injector then assertNotDestroyed injector else ret tt) ;;
  prevInjector <- setCurrentInjector (SlotInjector injector) ;;
  previousInjectImplementation <- setInjectImplementation None ;;
  try_finally fn
    (setCurrentInjector prevInjector ;;
     setInjectImplementation previousInjectImplementation ;;
     ret tt).

Definition missing_context_text (debugFn : JsFunction) : string :=
  name debugFn +:+
  "() can only be used within an injection context such as a constructor, a factory function, a field initializer, or a function used with `runInInjectionContext`".

(** [assertInInjectionContext(debugFn)]. *)
Definition assertInInjectionContext (debugFn : JsFunction) : DI unit :=
  impl <- getInjectImplementation ;;
  inj <- getCurrentInjector ;;
  if negb (implementation_truthy impl) && negb (injector_truthy inj)
  then
    dev <- gets ngDevMode ;;
    throw (RuntimeError MISSING_INJECTION_CONTEXT
             (if dev then Message (missing_context_text debugFn)
              else NoMessage))
  else ret tt.

(** The state in which [runInInjectionContext] enters [fn]. *)
Definition installed (injector : Injector) (c : Context) : Context :=
  with_injectImplementation None
    (with_currentInjector (SlotInjector injector) c).

(** The guard at the top of [runInInjectionContext] lets the call
    through. *)
Definition guard_passes (injector : Injector) : bool :=
  negb (isR3Injector injector && destroyed injector).
End Bridge.

Arguments Context E : clear implicits.
Arguments DI E A : clear implicits.
End Injection.

(** ** Part 2: writable signals (signals/src/signal.ts) *)

Module Signals.

(** What the signal code can throw: the invalid-write error, the
    [TypeError] of a method called on a receiver that is not a node or of
    a call of something that is not a function, and whatever a user
    callback throws. *)
Inductive Thrown : Set :=
| InvalidWriteToSignal
| TypeError
| UserThrown (payload : nat).

(** What the write guard needs to know about the consumer that is
    computing: its identity and its [consumerAllowSignalWrites] flag. *)
Record ActiveConsumer : Set := mkActiveConsumer {
  consumerId : nat;
  consumerAllowSignalWrites : bool
}.

(** A function object made by [createSignalFromFunction]: the node stored
    under its [SIGNAL] key, and whether the writable API was attached. *)
Record SignalFn : Set := mkSignalFn {
  fnNode : nat;
  fnWritable : bool
}.

Section Graph.
(** [T] is the type of the signal's value.  [E] is the rest of the
    program state.  User callbacks (updaters, mutators, the post-set hook)
    run against [E]: they may change it and may throw, but they do not
    call back into the signal graph. *)
Context {T : Type} {E : Type}.

(** The calls that the properties below count. *)
Inductive Event : Type :=
| ProducerMayHaveChanged (node : nat)
| ProducerAccessed (node : nat)
| PostSignalSetFnCalled
| UpdaterCalled (node : nat) (current : T)
| MutatorCalled (node : nat) (current : T).

(** A user function: it may change the outside state and may throw. *)
Definition Callback (A : Type) : Type := E -> E * Outcome Thrown A.

(** A [mutator]: it changes the object it is handed in place, so besides
    the outside state and its completion it yields the content of that
    object when it is done. *)
Definition Mutator : Type := T -> E -> T * E * Outcome Thrown unit.

(** The fields of a [WritableSignalImpl], those it inherits from
    [ReactiveNode] included.  [equal] is a [ValueEqualityFn<T>]; the spec
    requires it to be pure and total, so it is a function to [bool].
    [readonlySignal] is [undefined] or the identity of a function object.
    Modelled from the spec: [valueVersion] is the node's monotonic integer
    version, which [valueVersion++] counts up exactly, and [consumers] the
    reverse set of consumer identities (signals/src/graph.ts is not among
    the sources). *)
Record SignalNode : Type := mkSignalNode {
  value : T;
  equal : T -> T -> bool;
  valueVersion : Z;
  readonlySignal : option nat;
  consumers : gset nat
}.

Definition with_value (v : T) (n : SignalNode) : SignalNode :=
  mkSignalNode v (equal n) (valueVersion n) (readonlySignal n) (consumers n).

Definition bump_valueVersion (n : SignalNode) : SignalNode :=
  mkSignalNode (value n) (equal n) (valueVersion n + 1) (readonlySignal n)
    (consumers n).

Definition with_readonlySignal (f : option nat) (n : SignalNode) : SignalNode :=
  mkSignalNode (value n) (equal n) (valueVersion n) f (consumers n).

Definition add_consumer (c : nat) (n : SignalNode) : SignalNode :=
  mkSignalNode (value n) (equal n) (valueVersion n) (readonlySignal n)
    ({[c]} ∪ consumers n).

(** The objects and module variables the signal code touches: the
    signal nodes by identity, the function objects by identity, the
    process-wide active-consumer slot, the consumers marked dirty, the
    versions recorded on dependency edges, the module variable
    [postSignalSetFn], the calls made so far, and the outside state. *)
Record World : Type := mkWorld {
  nodes : gmap nat SignalNode;
  fns : list SignalFn;
  activeConsumer : option ActiveConsumer;
  dirty : gset nat;
  lastRead : gmap (nat * nat) Z;
  postSignalSetFn : option (Callback unit);
  trace : list Event;
  outside : E
}.

Definition with_nodes (f : gmap nat SignalNode -> gmap nat SignalNode)
  (w : World) : World :=
  mkWorld (f (nodes w)) (fns w) (activeConsumer w) (dirty w) (lastRead w)
    (postSignalSetFn w) (trace w) (outside w).

Definition with_fns (l : list SignalFn) (w : World) : World :=
  mkWorld (nodes w) l (activeConsumer w) (dirty w) (lastRead w)
    (postSignalSetFn w) (trace w) (outside w).

Definition with_activeConsumer (a : option ActiveConsumer) (w : World) : World :=
  mkWorld (nodes w) (fns w) a (dirty w) (lastRead w)
    (postSignalSetFn w) (trace w) (outside w).

Definition with_dirty (d : gset nat) (w : World) : World :=
  mkWorld (nodes w) (fns w) (activeConsumer w) d (lastRead w)
    (postSignalSetFn w) (trace w) (outside w).

Definition with_lastRead (m : gmap (nat * nat) Z) (w : World) : World :=
  mkWorld (nodes w) (fns w) (activeConsumer w) (dirty w) m
    (postSignalSetFn w) (trace w) (outside w).

Definition with_postSignalSetFn (h : option (Callback unit)) (w : World) : World :=
  mkWorld (nodes w) (fns w) (activeConsumer w) (dirty w) (lastRead w)
    h (trace w) (outside w).

Definition with_outside (e : E) (w : World) : World :=
  mkWorld (nodes w) (fns w) (activeConsumer w) (dirty w) (lastRead w)
    (postSignalSetFn w) (trace w) e.

Definition log (ev : Event) (w : World) : World :=
  mkWorld (nodes w) (fns w) (activeConsumer w) (dirty w) (lastRead w)
    (postSignalSetFn w) (trace w ++ [ev]) (outside w).

Definition Sig (A : Type) : Type := M Thrown World A.

(** Reading a field of [this]. *)
Definition this_node (self : nat) : Sig SignalNode :=
  fun w =>
    match nodes w !! self with
    | Some n => (w, Returned n)
    | None => (w, Threw TypeError)
    end.

(** Assigning a field of [this]. *)
Definition update_node (self : nat) (f : SignalNode -> SignalNode) : Sig unit :=
  modify (with_nodes (alter f self)).

Definition run_callback {A} (c : Callback A) : Sig A :=
  fun w => let '(e, r) := c (outside w) in (with_outside e w, r).

(** Modelled from the spec: the [producerUpdatesAllowed] getter of
    [ReactiveNode] (graph.ts is not among the sources).  A write is
    refused while a consumer is computing, unless that consumer opted
    into signal writes. *)
Definition producerUpdatesAllowed (w : World) : bool :=
  match activeConsumer w with
  | None => true
  | Some c => consumerAllowSignalWrites c
  end.

(** Modelled from the spec: [throwInvalidWriteToSignalError]
    (signals/src/errors.ts is not among the sources) raises the
    invalid-write error. *)
Definition throwInvalidWriteToSignalError : Sig unit :=
  throw InvalidWriteToSignal.

(** Modelled from the spec: [ReactiveNode.producerMayHaveChanged]
    (graph.ts is not among the sources) walks the direct dependents of
    the node and marks each one dirty, without recomputing any. *)
Definition producerMayHaveChanged (self : nat) : Sig unit :=
  modify (log (ProducerMayHaveChanged self)) ;;
  this <- this_node self ;;
  d <- gets dirty ;;
  modify (with_dirty (d ∪ consumers this)).

(** Modelled from the spec: [ReactiveNode.producerAccessed] (graph.ts
    is not among the sources) records an edge from the consumer that
    is computing to this node, with the version it read; it does
    nothing when no consumer is computing. *)
Definition producerAccessed (self : nat) : Sig unit :=
  modify (log (ProducerAccessed self)) ;;
  active <- gets activeConsumer ;;
  match active with
  | None => ret tt
  | Some c =>
      this <- this_node self ;;
      update_node self (add_consumer (consumerId c)) ;;
      m <- gets lastRead ;;
      modify (with_lastRead (<[(consumerId c, self) := valueVersion this]> m))
  end.

(** Modelled from the spec: [createSignalFromFunction] (signals/src/api.ts
    is not among the sources) makes a new function object for the
    node; the new object's identity is its index in [fns]. *)
Definition createSignalFromFunction (node : nat) (writable : bool) : Sig nat :=
  l <- gets fns ;;
  modify (with_fns (l ++ [mkSignalFn node writable])) ;;
  ret (length l).

(** [postSignalSetFn?.()]. *)
Definition call_postSignalSetFn : Sig unit :=
  hook <- gets postSignalSetFn ;;
  match hook with
  | None => ret tt
  | Some f => modify (log PostSignalSetFnCalled) ;; run_callback f
  end.

(** [updater(v)] and [mutator(v)], with the call recorded. *)
Definition call_updater (self : nat) (updater : T -> Callback T) (v : T) : Sig T :=
  modify (log (UpdaterCalled self v)) ;;
  run_callback (updater v).

Definition call_mutator (self : nat) (mutator : Mutator) (v : T) : Sig unit :=
  modify (log (MutatorCalled self v)) ;;
  fun w =>
    let '(v', e, r) := mutator v (outside w) in
    (with_outside e (with_nodes (alter (with_value v') self) w), r).

(** [setPostSignalSetFn(fn)]. *)
Definition setPostSignalSetFn (fn : option (Callback unit))
  : Sig (option (Callback unit)) :=
  prev <- gets postSignalSetFn ;;
  modify (with_postSignalSetFn fn) ;;
  ret prev.
End Graph.

Arguments Event T : clear implicits.
Arguments Callback E A : clear implicits.
Arguments Mutator T E : clear implicits.
Arguments SignalNode T : clear implicits.
Arguments World T E : clear implicits.
Arguments Sig T E A : clear implicits.

(** The methods of [class WritableSignalImpl<T> extends ReactiveNode];
    [self] is the receiver. *)
Module WritableSignalImpl.
Section Methods.
Context {T : Type} {E : Type}.

Definition set (self : nat) (newValue : T) : Sig T E unit :=
  allowed <- gets producerUpdatesAllowed ;;
  (if negb allowed then throwInvalidWriteToSignalError else ret tt) ;;
  this <- this_node self ;;
  if negb (equal this (value this) newValue)
  then
    update_node self (with_value newValue) ;;
    update_node self bump_valueVersion ;;
    producerMayHaveChanged self ;;
    call_postSignalSetFn
  else ret tt.

Definition update (self : nat) (updater : T -> Callback E T) : Sig T E unit :=
  allowed <- gets producerUpdatesAllowed ;;
  (if negb allowed then throwInvalidWriteToSignalError else ret tt) ;;
  this <- this_node self ;;
  newValue <- call_updater self updater (value this) ;;
  set self newValue.

Definition mutate (self : nat) (mutator : Mutator T E) : Sig T E unit :=
  allowed <- gets producerUpdatesAllowed ;;
  (if negb allowed then throwInvalidWriteToSignalError else ret tt) ;;
  this <- this_node self ;;
  call_mutator self mutator (value this) ;;
  update_node self bump_valueVersion ;;
  producerMayHaveChanged self ;;
  call_postSignalSetFn.

Definition signal (self : nat) : Sig T E T :=
  producerAccessed self ;;
  this <- this_node self ;;
  ret (value this).

(** The result is the content of the [readonlySignal] field, of type
    [Signal<T> | undefined]. *)
Definition asReadonly (self : nat) : Sig T E (option nat) :=
  this <- this_node self ;;
  (match readonlySignal this with
   | None =>
       f <- createSignalFromFunction self false ;;
       update_node self (with_readonlySignal (Some f))
   | Some _ => ret tt
   end) ;;
  this' <- this_node self ;;
  ret (readonlySignal this').
End Methods.
End WritableSignalImpl.

Section Api.
Context {T : Type} `{EqDecision T} {E : Type}.

(** Modelled from the spec: [defaultEquals] (api.ts is not among the
    sources) is strict identity comparison. *)
Definition defaultEquals (a b : T) : bool := bool_decide (a = b).

(** [signal(initialValue, options)]: a new node and the function
    object that carries the writable API. *)
Definition signal (initialValue : T) (equalOption : option (T -> T -> bool))
  : Sig T E nat :=
  m <- gets nodes ;;
  let signalNode := fresh (dom m) in
  modify (with_nodes
            (insert signalNode
               (mkSignalNode initialValue (default defaultEquals equalOption)
                  0 None ∅))) ;;
  createSignalFromFunction signalNode true.

(** Calling a signal function object, [f()]: both
    [signalNode.signal.bind(signalNode)] and [() => this.signal()] run
    the [signal] method of the node they were made for. *)
Definition call_signalFn (f : nat) : Sig T E T :=
  l <- gets fns ;;
  match l !! f with
  | Some fn => WritableSignalImpl.signal (fnNode fn)
  | None => throw TypeError
  end.

(** The spec's reading of [update]: [set(fn(current))], written as the
    caller would write it with the public API. *)
Definition update_spec (self : nat) (fn : T -> Callback E T) : Sig T E unit :=
  this <- this_node self ;;
  newValue <- call_updater self fn (value this) ;;
  WritableSignalImpl.set self newValue.

(** A world with no node, no consumer computing and no hook. *)
Definition empty_world (e : E) : World T E :=
  mkWorld ∅ [] None ∅ ∅ None [] e.

(** What [postSignalSetFn?.()] adds to the trace. *)
Definition postSignalSetFn_events (w : World T E) : list (Event T) :=
  match postSignalSetFn w with
  | None => []
  | Some _ => [PostSignalSetFnCalled]
  end.

(** The number of [producerMayHaveChanged] calls on [self] in a trace. *)
Fixpoint producerMayHaveChanged_calls (self : nat) (tr : list (Event T)) : nat :=
  match tr with
  | [] => O
  | ProducerMayHaveChanged n :: tr' =>
      ((if Nat.eqb n self then 1 else 0) + producerMayHaveChanged_calls self tr')%nat
  | _ :: tr' => producerMayHaveChanged_calls self tr'
  end.

(** The number of calls of user functions in a trace. *)
Fixpoint user_function_calls (tr : list (Event T)) : nat :=
  match tr with
  | [] => O
  | (UpdaterCalled _ _ | MutatorCalled _ _) :: tr' => S (user_function_calls tr')
  | _ :: tr' => user_function_calls tr'
  end.

(** Every [readonlySignal] field holds a function object that was made
    for that very node, without the writable API. *)
Definition views_consistent (w : World T E) : Prop :=
  forall self this h,
    nodes w !! self = Some this ->
    readonlySignal this = Some h ->
    fns w !! h = Some (mkSignalFn self false).

(** The number of readonly views of node [self] among the function
    objects. *)
Fixpoint readonly_views (self : nat) (l : list SignalFn) : nat :=
  match l with
  | [] => O
  | fn :: l' =>
      ((if Nat.eqb (fnNode fn) self && negb (fnWritable fn) then 1 else 0)
       + readonly_views self l')%nat
  end.

(** What a program can do to the signal graph from outside: the public
    API of signals, a consumer starting or finishing its computation,
    and the installation of a post-set hook. *)
Inductive Op : Type :=
| OpSignal (initialValue : T) (equalOption : option (T -> T -> bool))
| OpSet (self : nat) (newValue : T)
| OpUpdate (self : nat) (updater : T -> Callback E T)
| OpMutate (self : nat) (mutator : Mutator T E)
| OpAsReadonly (self : nat)
| OpCall (f : nat)
| OpSetPostSignalSetFn (fn : option (Callback E unit))
| OpActiveConsumer (c : option ActiveConsumer).

Definition step (w : World T E) (o : Op) : World T E :=
  match o with
  | OpSignal initialValue equalOption => fst (signal initialValue equalOption w)
  | OpSet self newValue => fst (WritableSignalImpl.set self newValue w)
  | OpUpdate self updater => fst (WritableSignalImpl.update self updater w)
  | OpMutate self mutator => fst (WritableSignalImpl.mutate self mutator w)
  | OpAsReadonly self => fst (WritableSignalImpl.asReadonly self w)
  | OpCall f => fst (call_signalFn f w)
  | OpSetPostSignalSetFn fn => fst (setPostSignalSetFn fn w)
  | OpActiveConsumer c => with_activeConsumer c w
  end.

Definition run_ops (ops : list Op) (w : World T E) : World T E :=
  fold_left step ops w.

(** Node [self] exists and its [readonlySignal] field holds [h]. *)
Definition has_view (self h : nat) (w : World T E) : Prop :=
  exists this, nodes w !! self = Some this /\ readonlySignal this = Some h.

(** [w'] has the function objects of [w], and every node has the
    [readonlySignal] field it has in [w]. *)
Definition same_views (w w' : World T E) : Prop :=
  fns w' = fns w /\
  forall s, readonlySignal <$> nodes w' !! s = readonlySignal <$> nodes w !! s.

Definition keeps_views {A} (c : Sig T E A) : Prop :=
  forall w, same_views w (fst (c w)).

(** How many readonly views a node must have, given the content of
    its [readonlySignal] field (if the node exists at all). *)
Definition expected_views (field : option (option nat)) : nat :=
  match field with
  | Some (Some _) => 1%nat
  | Some None | None => O
  end.

Definition views_counted (w : World T E) : Prop :=
  forall self,
    readonly_views self (fns w)
    = expected_views (readonlySignal <$> nodes w !! self).
End Api.

Arguments Op T E : clear implicits.
End Signals.

(** ** Concrete inputs used by the examples *)

Module InjectionSamples.
Import Injection.

(** A callback that counts its own invocations in the outside state and
    returns 7. *)
Definition counting_fn : DI nat nat :=
  fun c => (with_outside (S (outside c)) c, Returned 7%nat).

(** A callback that counts its own invocations and then throws. *)
Definition failing_fn : DI nat nat :=
  fun c => (with_outside (S (outside c)) c, Threw (UserThrown 42)).

Definition live_injector : Injector := mkInjector 1 true false.

Definition destroyed_injector : Injector := mkInjector 2 true true.

Definition inject_fn : JsFunction := mkJsFunction 0 "inject".

(** No injector, no inject implementation; development mode. *)
Definition bare_context : Context nat := mkContext SlotUndefined None true 0%nat.

(** The same in production mode, where [ngDevMode] is falsy. *)
Definition production_context : Context nat :=
  mkContext SlotUndefined None false 0%nat.

(** Inside some other injector's context, with an inject override. *)
Definition nested_context : Context nat :=
  mkContext (SlotInjector (mkInjector 9 false false))
    (Some (mkJsFunction 5 "injectOverride")) true 0%nat.
End InjectionSamples.

Module SignalSamples.
Import Signals.

(** The node that [signal(5)] makes: default equality, version 0, no
    readonly view yet, no consumer. *)
Definition five_node : SignalNode Z := mkSignalNode 5 defaultEquals 0 None ∅.

(** The world after [const s = signal(5)] in an empty graph; [s] is node
    0 and function object 0. *)
Definition five : World Z nat := fst (signal 5 None (empty_world 0%nat)).

(** The same while a consumer that does not allow signal writes (a
    computed) is computing. *)
Definition five_read_only : World Z nat :=
  with_activeConsumer (Some (mkActiveConsumer 3 false)) five.

(** An updater that adds one and counts its own invocations in the
    outside state. *)
Definition increment : Z -> Callback nat Z :=
  fun v e => (S e, Returned (v + 1)).

(** A mutator that counts its own invocations and leaves the value as it
    found it. *)
Definition touch : Mutator Z nat :=
  fun v e => (v, S e, Returned tt).

(** A custom equality function that never tells two values apart. *)
Definition always_equal : Z -> Z -> bool := fun _ _ => true.

(** The world after [const s = signal(1, {equal: () => true})]. *)
Definition lenient : World Z nat :=
  fst (signal 1 (Some always_equal) (empty_world 0%nat)).
End SignalSamples.

(** ** Relations between the states before and after an operation *)

Module SignalFrames.
Import Signals.

Section Frames.
Context {T : Type} {E : Type}.

(** Every node of [w] is still there in [w'], with the equality function
    it was made with and a version that is not smaller. *)
Definition grows (w w' : World T E) : Prop :=
  forall s n,
    nodes w !! s = Some n ->
    exists n', nodes w' !! s = Some n' /\
               equal n' = equal n /\ valueVersion n <= valueVersion n'.

(** A field assignment that keeps the equality function and does not
    lower the version. *)
Definition field_update (f : SignalNode T -> SignalNode T) : Prop :=
  forall n, equal (f n) = equal n /\ valueVersion n <= valueVersion (f n).

(** A computation whose final state is related by [R] to the state it
    started in, however it completes. *)
Definition respects (R : World T E -> World T E -> Prop) {A} (c : Sig T E A) : Prop :=
  forall w, R w (fst (c w)).
End Frames.
End SignalFrames.

Module SignalFrameSamples.
Import Signals SignalSamples.

(** An updater and a mutator that fail after having touched the outside
    state; the mutator has already changed the value to 8 when it fails. *)
Definition failing_updater : Z -> Callback nat Z :=
  fun v e => (S e, Threw (UserThrown 7)).

Definition failing_mutator : Mutator Z nat :=
  fun v e => (8, S e, Threw (UserThrown 7)).

(** A post-set hook that counts its calls, and one that fails. *)
Definition counting_hook : Callback nat unit :=
  fun e => (S e, Returned tt).

Definition failing_hook : Callback nat unit :=
  fun e => (S e, Threw (UserThrown 9)).

(** [signal(5)] with the failing hook installed. *)
Definition five_failing_hook : World Z nat :=
  with_postSignalSetFn (Some failing_hook) five.
End SignalFrameSamples.

(** ** Part 3: dehydrated views of a container (hydration/views.ts) *)

Module Hydration.

(** A [SerializedContainerView], as far as this file reads it: the
    template id, the number of root nodes, and the optional multiplier
    (all three are keyed by constants of hydration/interfaces.ts).  The
    two numbers are integer counts. *)
Record SerializedContainerView : Set := mkSerializedContainerView {
  TEMPLATE_ID : string;
  NUM_ROOT_NODES : Z;
  MULTIPLIER : option Z
}.

(** Which function the module variable [_findMatchingDehydratedViewImpl]
    holds: the initial one, which answers [null], or
    [findMatchingDehydratedViewImpl]. *)
Inductive FindImpl : Set :=
| AnswerNull
| FindMatchingDehydratedViewImpl.

Section Views.
(** [RNode] is the type of DOM nodes and [C] what else an [LContainer]
    holds.  [siblingAfter] (hydration/node_lookup_utils.ts) and
    [removeDehydratedViews] (hydration/cleanup.ts) are not among the
    sources; they are parameters. *)
Context {RNode : Type} {C : Type}.

Record DehydratedContainerView : Type := mkDehydratedContainerView {
  data : SerializedContainerView;
  firstChild : option RNode
}.

(** An [LContainer]: its [DEHYDRATED_VIEWS] slot, [null] or an array, and
    the rest. *)
Record LContainer : Type := mkLContainer {
  DEHYDRATED_VIEWS : option (list DehydratedContainerView);
  container_rest : C
}.

Variable siblingAfter : Z -> RNode -> RNode.
Variable removeDehydratedViews : LContainer -> LContainer.

(** The number of times the inner loop runs: [i] counts up from 0 while
    [i < (serializedView[MULTIPLIER] ?? 1)]. *)
Definition repetitions (serializedView : SerializedContainerView) : nat :=
  Z.to_nat (default 1 (MULTIPLIER serializedView)).

(** One round of the inner loop body. *)
Definition locate_one (serializedView : SerializedContainerView)
  (state : RNode * list DehydratedContainerView)
  : RNode * list DehydratedContainerView :=
  let '(currentRNode, dehydratedViews) := state in
  if 0 <? NUM_ROOT_NODES serializedView
  then (siblingAfter (NUM_ROOT_NODES serializedView) currentRNode,
        dehydratedViews ++ [mkDehydratedContainerView serializedView (Some currentRNode)])
  else (currentRNode,
        dehydratedViews ++ [mkDehydratedContainerView serializedView None]).

(** The inner loop. *)
Fixpoint locate_repeated (n : nat) (serializedView : SerializedContainerView)
  (state : RNode * list DehydratedContainerView)
  : RNode * list DehydratedContainerView :=
  match n with
  | O => state
  | S n' => locate_repeated n' serializedView (locate_one serializedView state)
  end.

(** [locateDehydratedViewsInContainer(currentRNode, serializedViews)]. *)
Definition locateDehydratedViewsInContainer (currentRNode : RNode)
  (serializedViews : list SerializedContainerView)
  : RNode * list DehydratedContainerView :=
  fold_left
    (fun state serializedView =>
       locate_repeated (repetitions serializedView) serializedView state)
    serializedViews (currentRNode, []).

(** Truthiness of a [string | null]. *)
Definition template_truthy (template : option string) : bool :=
  match template with
  | None => false
  | Some t => negb (String.eqb t "")
  end.

(** [findMatchingDehydratedViewImpl(lContainer, template)]: the container
    after the call and the result. *)
Definition findMatchingDehydratedViewImpl (lContainer : LContainer)
  (template : option string) : LContainer * option DehydratedContainerView :=
  let views := default [] (DEHYDRATED_VIEWS lContainer) in
  if negb (template_truthy template) || Nat.eqb (length views) 0
  then (lContainer, None)
  else
    match views with
    | [] => (lContainer, None)
    | view :: shifted =>
        if bool_decide (Some (TEMPLATE_ID (data view)) = template)
        then (mkLContainer (Some shifted) (container_rest lContainer), Some view)
        else (removeDehydratedViews lContainer, None)
    end.

(** [enableFindMatchingDehydratedViewImpl()]. *)
Definition enableFindMatchingDehydratedViewImpl (impl : FindImpl) : FindImpl :=
  FindMatchingDehydratedViewImpl.

(** [findMatchingDehydratedView(lContainer, template)]. *)
Definition findMatchingDehydratedView (impl : FindImpl) (lContainer : LContainer)
  (template : option string) : LContainer * option DehydratedContainerView :=
  match impl with
  | AnswerNull => (lContainer, None)
  | FindMatchingDehydratedViewImpl =>
      findMatchingDehydratedViewImpl lContainer template
  end.

(** A caller that asks for one view per template id, in order. *)
Fixpoint find_each (impl : FindImpl) (templates : list string)
  (lContainer : LContainer) : LContainer * list (option DehydratedContainerView) :=
  match templates with
  | [] => (lContainer, [])
  | t :: templates' =>
      let '(lContainer1, found) := findMatchingDehydratedView impl lContainer (Some t) in
      let '(lContainer2, rest) := find_each impl templates' lContainer1 in
      (lContainer2, found :: rest)
  end.

(** The serialized views as the loops visit them, each one repeated as
    often as its multiplier says. *)
Definition expanded (serializedViews : list SerializedContainerView)
  : list SerializedContainerView :=
  flat_map (fun sv => replicate (repetitions sv) sv) serializedViews.

(** The number of DOM nodes the located views cover. *)
Definition covered_nodes (serializedViews : list SerializedContainerView) : Z :=
  fold_right (fun sv total => Z.max 0 (NUM_ROOT_NODES sv) + total) 0
    (expanded serializedViews).
End Views.

Arguments DehydratedContainerView RNode : clear implicits.
Arguments LContainer RNode C : clear implicits.
End Hydration.

Module HydrationSamples.
Import Hydration.

(** A DOM in which the nodes of a container are numbered in document
    order, so that the [n]-th sibling after node [k] is node [k + n]. *)
Definition nth_sibling (skip : Z) (from : Z) : Z := from + skip.

(** A cleanup that empties the [DEHYDRATED_VIEWS] slot. *)
Definition drop_all (c : LContainer Z unit) : LContainer Z unit :=
  mkLContainer (Some []) (container_rest c).

(** An [*ngFor] over three items with two root nodes each, followed by a
    view without root nodes and a single one-node view. *)
Definition three_rows : list SerializedContainerView :=
  [ mkSerializedContainerView "t0" 2 (Some 3);
    mkSerializedContainerView "t1" 0 None;
    mkSerializedContainerView "t2" 1 None ].
End HydrationSamples.

(** ** Part 4: the [NgClass] directive (common/src/directives/ng_class.ts) *)

Module NgClassDirective.

(** A JavaScript string is a sequence of UTF-16 code units, written here
    as [list N].  [is_whitespace] is the set of code units that the
    regular expression [\s] matches, which is also the set that [trim]
    strips: the white space and line terminator characters. *)
Definition is_whitespace (c : N) : bool :=
  ((9 <=? c) && (c <=? 13) || (c =? 32) || (c =? 160) || (c =? 5760)
   || (8192 <=? c) && (c <=? 8202) || (c =? 8232) || (c =? 8233)
   || (c =? 8239) || (c =? 8287) || (c =? 12288) || (c =? 65279))%N.

Fixpoint drop_whitespace (s : list N) : list N :=
  match s with
  | [] => []
  | c :: s' => if is_whitespace c then drop_whitespace s' else s
  end.

(** [s.trim()]. *)
Definition trim (s : list N) : list N :=
  rev (drop_whitespace (rev (drop_whitespace s))).

(** [s.split(/\s+/)], scanning [s] from the left: [current] holds the
    code units of the piece being read, last one first, and
    [in_separator] says that the code unit just read was white space.
    Every maximal run of white space ends one piece and starts the next;
    the end of the string ends the last piece.  So the empty string gives
    one empty piece, and white space at either end gives an empty piece
    there. *)
Fixpoint split_from (in_separator : bool) (current : list N) (s : list N)
  : list (list N) :=
  match s with
  | [] => [rev current]
  | c :: s' =>
      if is_whitespace c
      then if in_separator
           then split_from true current s'
           else rev current :: split_from true [] s'
      else split_from false (c :: current) s'
  end.

(** [s.split(WS_REGEXP)]. *)
Definition split_whitespace (s : list N) : list (list N) :=
  split_from false [] s.

(** [interface CssClassState]. *)
Record CssClassState : Set := mkCssClassState {
  enabled : bool;
  changed : bool;
  touched : bool
}.

(** [type NgClassSupportedTypes]: an array of strings, a [Set] of strings
    in insertion order, an object given by its keys in [Object.keys]
    order with the truthiness of each value, or [null]/[undefined]. *)
Inductive NgClassSupportedTypes : Set :=
| ClassArray (classes : list (list N))
| ClassSet (classes : list (list N))
| ClassObject (entries : list (list N * bool))
| ClassNullish.

(** What the [ngClass] input accepts: a string, or one of the above. *)
Inductive NgClassInput : Set :=
| ClassString (value : list N)
| ClassOther (value : NgClassSupportedTypes).

(** A call on [this._renderer] for the host element. *)
Inductive RendererCall : Set :=
| AddClass (klass : list N)
| RemoveClass (klass : list N).

Definition call_class (c : RendererCall) : list N :=
  match c with
  | AddClass klass | RemoveClass klass => klass
  end.

(** The directive: its three private fields, and the calls it has made on
    the renderer so far.  [stateMap] is a [Map]: its entries in insertion
    order. *)
Record NgClass : Set := mkNgClass {
  initialClasses : list (list N);
  rawClass : NgClassSupportedTypes;
  stateMap : list (list N * CssClassState);
  renderer_calls : list RendererCall
}.

Definition EMPTY_ARRAY : list (list N) := [].

(** A directive that has just been constructed. *)
Definition new_NgClass : NgClass := mkNgClass EMPTY_ARRAY ClassNullish [] [].

(** [set klass(value)]. *)
Definition set_klass (value : option (list N)) (d : NgClass) : NgClass :=
  mkNgClass
    (match value with
     | Some v => split_whitespace (trim v)
     | None => EMPTY_ARRAY
     end)
    (rawClass d) (stateMap d) (renderer_calls d).

(** [set ngClass(value)]. *)
Definition set_ngClass (value : NgClassInput) (d : NgClass) : NgClass :=
  mkNgClass (initialClasses d)
    (match value with
     | ClassString v => ClassArray (split_whitespace (trim v))
     | ClassOther v => v
     end)
    (stateMap d) (renderer_calls d).

(** The state object after the body of the [state !== undefined] branch. *)
Definition touch_state (nextEnabled : bool) (state : CssClassState) : CssClassState :=
  let state1 :=
    if negb (Bool.eqb (enabled state) nextEnabled)
    then mkCssClassState nextEnabled true (touched state)
    else state in
  mkCssClassState (enabled state1) (changed state1) true.

(** [_updateState(klass, nextEnabled)] on the entries of [stateMap]: the
    entry of [klass] is updated where it stands, and a new entry goes to
    the end. *)
Fixpoint _updateState (klass : list N) (nextEnabled : bool)
  (entries : list (list N * CssClassState)) : list (list N * CssClassState) :=
  match entries with
  | [] => [(klass, mkCssClassState nextEnabled true true)]
  | (k, state) :: rest =>
      if decide (k = klass)
      then (k, touch_state nextEnabled state) :: rest
      else (k, state) :: _updateState klass nextEnabled rest
  end.

(** [_toggleClass(klass, enabled)]: the renderer calls it makes.  The
    development-mode check throws for a [klass] that is not a string,
    which the type of [klass] excludes here. *)
Definition _toggleClass (klass : list N) (enabled : bool) : list RendererCall :=
  let klass := trim klass in
  if (0 <? length klass)%nat
  then map (fun k => if enabled then AddClass k else RemoveClass k)
         (split_whitespace klass)
  else [].

(** [_applyStateDiff()] on the entries of [stateMap], in iteration order:
    the entries that stay, and the renderer calls made. *)
Fixpoint _applyStateDiff (entries : list (list N * CssClassState))
  : list (list N * CssClassState) * list RendererCall :=
  match entries with
  | [] => ([], [])
  | (klass, state) :: rest =>
      let '(kept, calls) := _applyStateDiff rest in
      if changed state
      then ((klass, mkCssClassState (enabled state) false false) :: kept,
            _toggleClass klass (enabled state) ++ calls)
      else if negb (touched state)
      then (kept,
            (if enabled state then _toggleClass klass false else []) ++ calls)
      else ((klass, mkCssClassState (enabled state) false false) :: kept, calls)
  end.

(** The [_updateState] calls of [ngDoCheck], in order: the classes of the
    [class] binding, then those of the [ngClass] binding. *)
Definition bindings (d : NgClass) : list (list N * bool) :=
  map (fun klass => (klass, true)) (initialClasses d)
  ++ match rawClass d with
     | ClassArray classes | ClassSet classes =>
         map (fun klass => (klass, true)) classes
     | ClassObject entries => entries
     | ClassNullish => []
     end.

Definition update_all (updates : list (list N * bool))
  (entries : list (list N * CssClassState)) : list (list N * CssClassState) :=
  fold_left (fun st update => _updateState (fst update) (snd update) st)
    updates entries.

(** [ngDoCheck()]. *)
Definition ngDoCheck (d : NgClass) : NgClass :=
  let entries1 :=
    fold_left (fun st klass => _updateState klass true st)
      (initialClasses d) (stateMap d) in
  let entries2 :=
    match rawClass d with
    | ClassArray classes | ClassSet classes =>
        fold_left (fun st klass => _updateState klass true st) classes entries1
    | ClassObject entries =>
        fold_left (fun st entry => _updateState (fst entry) (snd entry) st)
          entries entries1
    | ClassNullish => entries1
    end in
  let '(kept, calls) := _applyStateDiff entries2 in
  mkNgClass (initialClasses d) (rawClass d) kept (renderer_calls d ++ calls).

(** [stateMap.get(klass)]. *)
Fixpoint find_state (klass : list N) (entries : list (list N * CssClassState))
  : option CssClassState :=
  match entries with
  | [] => None
  | (k, state) :: rest =>
      if decide (k = klass) then Some state else find_state klass rest
  end.

(** Between two checks every entry has [changed] and [touched] reset. *)
Definition quiescent (entries : list (list N * CssClassState)) : Prop :=
  Forall (fun entry => changed (snd entry) = false /\ touched (snd entry) = false)
    entries.

(** No class name is bound to two different values. *)
Definition consistent (updates : list (list N * bool)) : Prop :=
  forall klass b b',
    In (klass, b) updates -> In (klass, b') updates -> b = b'.

(** A class name the DOM accepts: not empty, no white space. *)
Definition token_ok (klass : list N) : Prop :=
  klass <> [] /\ Forall (fun c => is_whitespace c = false) klass.

(** An ASCII literal as a JavaScript string. *)
Definition js (s : string) : list N :=
  map Ascii.N_of_ascii (String.list_ascii_of_string s).
End NgClassDirective.

Module NgClassRuns.
Import NgClassDirective.

(** The entries of a [Map] have pairwise different keys. *)
Definition is_map (entries : list (list N * CssClassState)) : Prop :=
  NoDup (map fst entries).

(** An entry that [_applyStateDiff] keeps. *)
Definition kept_entry (state : CssClassState) : bool :=
  changed state || touched state.

Definition reset_state (state : CssClassState) : CssClassState :=
  mkCssClassState (enabled state) false false.

Definition mark_touched (state : CssClassState) : CssClassState :=
  mkCssClassState (enabled state) (changed state) true.

(** What [_updateState(klass, b)] does to a map in which [klass] already
    has the value [b]: it marks the entry as touched. *)
Fixpoint touch_first (klass : list N) (entries : list (list N * CssClassState))
  : list (list N * CssClassState) :=
  match entries with
  | [] => []
  | (k, state) :: rest =>
      if decide (k = klass)
      then (k, mark_touched state) :: rest
      else (k, state) :: touch_first klass rest
  end.

(** What the framework does with a directive: it sets the two inputs and
    runs change detection. *)
Inductive NgClassOp : Set :=
| SetKlass (value : option (list N))
| SetNgClass (value : NgClassInput)
| DoCheck.

Definition ngClass_step (d : NgClass) (o : NgClassOp) : NgClass :=
  match o with
  | SetKlass value => set_klass value d
  | SetNgClass value => set_ngClass value d
  | DoCheck => ngDoCheck d
  end.

Definition ngClass_run (ops : list NgClassOp) : NgClass :=
  fold_left ngClass_step ops new_NgClass.
End NgClassRuns.

Module NgClassSamples.
Import NgClassDirective NgClassRuns.

(** [<div class="x" [ngClass]="{'a b': true, c: false}">], inputs set and
    not yet checked. *)
Definition two_bindings : list NgClassOp :=
  [ SetKlass (Some (js "x"));
    SetNgClass (ClassOther (ClassObject [(js "a b", true); (js "c", false)])) ].

(** [[ngClass]="['a b']"] checked once, after which the binding becomes
    [null]. *)
Definition binding_withdrawn : list NgClassOp :=
  [ SetNgClass (ClassOther (ClassArray [js "a b"]));
    DoCheck;
    SetNgClass (ClassOther ClassNullish) ].
End NgClassSamples.

(** ** Part 5: style urls of a component decorator
    (compiler-cli/src/ngtsc/annotations/component/src/resources.ts) *)

Module StyleUrls.

#[local] Set Warnings "-register-all".

(** A TypeScript expression as far as the extraction tells expressions
    apart: an array literal with its elements, a spread element with the
    expression it spreads, or anything else.  [node] is the identity of
    the syntax node. *)
Inductive Expression : Set :=
| ArrayLiteralExpression (node : nat) (elements : list Expression)
| SpreadElement (node : nat) (expression : Expression)
| OtherExpression (node : nat).

(** What the partial evaluator makes of an expression, as far as the
    extraction looks at it: a string, an array, or something else. *)
Inductive ResolvedValue : Set :=
| StringValue (s : string)
| ArrayValue (elements : list ResolvedValue)
| OtherValue.

(** [const enum ResourceTypeForDiagnostics]. *)
Inductive ResourceTypeForDiagnostics : Set :=
| Template
| StylesheetFromTemplate
| StylesheetFromDecorator.

(** [interface StyleUrlMeta]. *)
Record StyleUrlMeta : Set := mkStyleUrlMeta {
  url : string;
  source : ResourceTypeForDiagnostics;
  nodeForError : Expression
}.

(** The error made by [createValueHasWrongTypeError(node, value, message)]
    (annotations/common is not among the sources): its three arguments. *)
Record ValueHasWrongTypeError : Set := mkValueHasWrongTypeError {
  error_node : Expression;
  error_value : ResolvedValue;
  error_message : string
}.

Definition is_string (v : ResolvedValue) : bool :=
  match v with
  | StringValue _ => true
  | ArrayValue _ | OtherValue => false
  end.

(** [isStringArray] (annotations/common is not among the sources), taken
    by its contract: an array all of whose elements are strings. *)
Definition isStringArray (v : ResolvedValue) : bool :=
  match v with
  | ArrayValue elements => forallb is_string elements
  | StringValue _ | OtherValue => false
  end.

(** The strings of an array value, in order. *)
Fixpoint strings_of (elements : list ResolvedValue) : list string :=
  match elements with
  | [] => []
  | StringValue s :: rest => s :: strings_of rest
  | _ :: rest => strings_of rest
  end.

Section Extraction.
(** [evaluator.evaluate], the partial evaluator, is a parameter. *)
Variable evaluate : Expression -> ResolvedValue.

(** The loop over the elements of an array literal; [extract] is
    [extractStyleUrlsFromExpression] itself, for the spread elements. *)
Fixpoint extract_elements
  (extract : Expression -> Outcome ValueHasWrongTypeError (list StyleUrlMeta))
  (elements : list Expression) (styleUrls : list StyleUrlMeta)
  : Outcome ValueHasWrongTypeError (list StyleUrlMeta) :=
  match elements with
  | [] => Returned styleUrls
  | styleUrlExpr :: rest =>
      match styleUrlExpr with
      | SpreadElement _ expression =>
          match extract expression with
          | Returned more => extract_elements extract rest (styleUrls ++ more)
          | Threw x => Threw x
          end
      | ArrayLiteralExpression _ _ | OtherExpression _ =>
          match evaluate styleUrlExpr with
          | StringValue styleUrl =>
              extract_elements extract rest
                (styleUrls
                 ++ [mkStyleUrlMeta styleUrl StylesheetFromDecorator styleUrlExpr])
          | (ArrayValue _ | OtherValue) as styleUrl =>
              Threw (mkValueHasWrongTypeError styleUrlExpr styleUrl
                       "styleUrl must be a string")
          end
      end
  end.

(** [extractStyleUrlsFromExpression(evaluator, styleUrlsExpr)]. *)
Fixpoint extractStyleUrlsFromExpression (styleUrlsExpr : Expression)
  : Outcome ValueHasWrongTypeError (list StyleUrlMeta) :=
  match styleUrlsExpr with
  | ArrayLiteralExpression _ elements =>
      extract_elements extractStyleUrlsFromExpression elements []
  | SpreadElement _ _ | OtherExpression _ =>
      let evaluatedStyleUrls := evaluate styleUrlsExpr in
      if negb (isStringArray evaluatedStyleUrls)
      then Threw (mkValueHasWrongTypeError styleUrlsExpr evaluatedStyleUrls
                    "styleUrls must be an array of strings")
      else
        Returned
          (map (fun styleUrl =>
                  mkStyleUrlMeta styleUrl StylesheetFromDecorator styleUrlsExpr)
             (match evaluatedStyleUrls with
              | ArrayValue elements => strings_of elements
              | StringValue _ | OtherValue => []
              end))
  end.

(** What every extracted url satisfies: it comes from the decorator, and
    the node kept for diagnostics is one whose value is that url or an
    array that holds it. *)
Definition blames_its_origin (meta : StyleUrlMeta) : Prop :=
  source meta = StylesheetFromDecorator /\
  (evaluate (nodeForError meta) = StringValue (url meta) \/
   exists elements,
     evaluate (nodeForError meta) = ArrayValue elements /\
     In (StringValue (url meta)) elements).

(** [extractComponentStyleUrls(evaluator, component)]. *)
Definition extractComponentStyleUrls (component : gmap string Expression)
  : Outcome ValueHasWrongTypeError (list StyleUrlMeta) :=
  match component !! "styleUrls" with
  | None => Returned []
  | Some styleUrlsExpr => extractStyleUrlsFromExpression styleUrlsExpr
  end.
End Extraction.
End StyleUrls.

Module StyleUrlSamples.
Import StyleUrls.

(** An evaluator that knows three string literals and one constant that
    holds an array of two strings. *)
Definition sample_evaluate (e : Expression) : ResolvedValue :=
  match e with
  | OtherExpression 1 => StringValue "./a.css"
  | OtherExpression 2 => StringValue "./b.css"
  | OtherExpression 3 => ArrayValue [StringValue "./c.css"; StringValue "./d.css"]
  | _ => OtherValue
  end.

(** [styleUrls: ['./a.css', ...SHARED, 42]]: the last element is not a
    string. *)
Definition bad_element : Expression :=
  ArrayLiteralExpression 10
    [OtherExpression 1; SpreadElement 11 (OtherExpression 3); OtherExpression 4].
End StyleUrlSamples.

(** ** Properties of the injection-context bridge *)

Section InjectionFacts.
Import Injection.
Context {E : Type}.

Lemma setCurrentInjector_run (s : InjectorSlot) (c : Context E) :
  setCurrentInjector s c = (with_currentInjector s c, Returned (currentInjector c)).
Proof. reflexivity. Qed.

Lemma setInjectImplementation_run (i : option JsFunction) (c : Context E) :
  setInjectImplementation i c
  = (with_injectImplementation i c, Returned (injectImplementation c)).
Proof. reflexivity. Qed.

(** Once the guard has let the call through, the body is the scoped
    install / call / restore sequence. *)
Lemma runInInjectionContext_unfold {R} (injector : Injector) (fn : DI E R)
  (c : Context E) :
  guard_passes injector = true ->
  runInInjectionContext injector fn c
  = try_finally fn
      (setCurrentInjector (currentInjector c) ;;
       setInjectImplementation (injectImplementation c) ;;
       ret tt)
      (installed injector c).
Proof.
  unfold guard_passes, runInInjectionContext, assertNotDestroyed.
  destruct (isR3Injector injector), (destroyed injector); simpl; try discriminate;
    intros _; reflexivity.
Qed.

(** On a destroyed [R3Injector] the guard throws: nothing is installed
    and [fn] is not entered. *)
Lemma runInInjectionContext_destroyed {R} (injector : Injector) (fn : DI E R)
  (c : Context E) :
  guard_passes injector = false ->
  runInInjectionContext injector fn c
  = (c, Threw (RuntimeError INJECTOR_ALREADY_DESTROYED
                 (if ngDevMode c then Message "Injector has already been destroyed."
                  else NoMessage))).
Proof.
  unfold guard_passes, runInInjectionContext, assertNotDestroyed.
  destruct (isR3Injector injector), (destroyed injector); simpl; try discriminate;
    intros _; reflexivity.
Qed.

(** C4 (as amended): for every injector and every [fn], on every exit
    path of [runInInjectionContext] the current injector and the inject
    implementation are what they were before the call.  If the injector
    passes the guard at the top (it is not a destroyed [R3Injector]), [fn]
    is run once, in the state where the injector is installed and the
    inject override is cleared, and the call completes the way [fn]
    completed: the same returned value, or the same thrown error; what
    else [fn] did to the program state is kept.  If the injector is a
    destroyed [R3Injector], the guard throws the destroyed-injector error,
    [fn] is not run and the state is the one before the call. *)
Theorem runInInjectionContext_restores {R} (injector : Injector) (fn : DI E R)
  (c : Context E) :
  let entered := fn (installed injector c) in
  let finished := runInInjectionContext injector fn c in
  currentInjector (fst finished) = currentInjector c /\
  injectImplementation (fst finished) = injectImplementation c /\
  (guard_passes injector = true ->
   snd finished = snd entered /\
   outside (fst finished) = outside (fst entered) /\
   ngDevMode (fst finished) = ngDevMode (fst entered)) /\
  (guard_passes injector = false ->
   fst finished = c /\
   exists message,
     snd finished = Threw (RuntimeError INJECTOR_ALREADY_DESTROYED message)).
Proof.
  cbv zeta.
  destruct (guard_passes injector) eqn:Hguard.
  - rewrite (runInInjectionContext_unfold injector fn c Hguard).
    unfold try_finally.
    destruct (fn (installed injector c)) as [c1 r].
    split; [reflexivity|]. split; [reflexivity|].
    split; [intros _; repeat split | discriminate].
  - rewrite (runInInjectionContext_destroyed injector fn c Hguard).
    split; [reflexivity|]. split; [reflexivity|].
    split; [discriminate|]. intros _. split; [reflexivity|].
    eexists. reflexivity.
Qed.

Lemma prefix_append (a b : string) : String.prefix a (a +:+ b) = true.
Proof.
  induction a as [|ch a IH]; simpl.
  - destruct b; reflexivity.
  - destruct (Ascii.ascii_dec ch ch) as [_|Hne]; [exact IH | contradiction].
Qed.

(** C5 (as amended): [assertInInjectionContext] throws exactly when
    neither an inject implementation nor a current injector is installed
    ([undefined] and [null] both count as no injector); the error is the
    MISSING_INJECTION_CONTEXT runtime error, thrown to the caller with
    the state untouched; in development mode its message is a text that
    starts with the name of the function that made the assertion, and
    when [ngDevMode] is falsy the error is given no message text. *)
Theorem assertInInjectionContext_throws_iff (debugFn : JsFunction) (c : Context E) :
  let r := assertInInjectionContext debugFn c in
  fst r = c /\
  ((exists x, snd r = Threw x) <->
     injectImplementation c = None /\ injector_truthy (currentInjector c) = false) /\
  (forall x, snd r = Threw x ->
     x = RuntimeError MISSING_INJECTION_CONTEXT
           (if ngDevMode c then Message (missing_context_text debugFn)
            else NoMessage)) /\
  String.prefix (name debugFn) (missing_context_text debugFn) = true.
Proof.
  cbv zeta. unfold assertInInjectionContext, getInjectImplementation,
    getCurrentInjector, bind, gets, throw, ret.
  destruct (injectImplementation c) as [impl|] eqn:Himpl;
    destruct (currentInjector c) as [| |inj] eqn:Hinj; simpl;
    (split; [reflexivity|]); (split; [|split; [|apply prefix_append]]);
    try (split; [intros [x Hx]; discriminate | intros [H1 H2]; discriminate]);
    try (intros x Hx; discriminate);
    try (split; [intros _; split; reflexivity | intros _; eexists; reflexivity]);
    intros x Hx; injection Hx as <-; reflexivity.
Qed.
End InjectionFacts.

(** ** Properties of writable signals *)

Section SignalFacts.
Import Signals.
Context {T : Type} {E : Type}.
Implicit Types (w : World T E) (self : nat) (this : SignalNode T) (v : T).

Ltac run_sig :=
  unfold WritableSignalImpl.set, WritableSignalImpl.update,
    WritableSignalImpl.mutate, WritableSignalImpl.signal,
    WritableSignalImpl.asReadonly, update_spec,
    throwInvalidWriteToSignalError, producerMayHaveChanged, producerAccessed,
    createSignalFromFunction, call_postSignalSetFn, call_updater, call_mutator,
    run_callback, update_node, this_node, bind, gets, modify, throw, ret.

Lemma producerMayHaveChanged_calls_app self (tr1 tr2 : list (Event T)) :
  producerMayHaveChanged_calls self (tr1 ++ tr2)
  = (producerMayHaveChanged_calls self tr1 + producerMayHaveChanged_calls self tr2)%nat.
Proof.
  induction tr1 as [|ev tr1 IH]; simpl; [reflexivity|].
  destruct ev; rewrite IH; lia.
Qed.

Lemma producerMayHaveChanged_calls_hook self w :
  producerMayHaveChanged_calls self (postSignalSetFn_events w) = O.
Proof. unfold postSignalSetFn_events. destruct (postSignalSetFn w); reflexivity. Qed.

(** The write guard shared by [set], [update] and [mutate]. *)
Lemma set_refused self v w :
  producerUpdatesAllowed w = false ->
  WritableSignalImpl.set self v w = (w, Threw InvalidWriteToSignal).
Proof. intros H. run_sig. rewrite H. reflexivity. Qed.

Lemma update_refused self (updater : T -> Callback E T) w :
  producerUpdatesAllowed w = false ->
  WritableSignalImpl.update self updater w = (w, Threw InvalidWriteToSignal).
Proof. intros H. run_sig. rewrite H. reflexivity. Qed.

Lemma mutate_refused self (mutator : Mutator T E) w :
  producerUpdatesAllowed w = false ->
  WritableSignalImpl.mutate self mutator w = (w, Threw InvalidWriteToSignal).
Proof. intros H. run_sig. rewrite H. reflexivity. Qed.

(** C1: when the signal's equality function says the current value and
    the new one are equal, [set] changes nothing at all: the node keeps
    its value and its version, [producerMayHaveChanged] is not called and
    no consumer is marked dirty (and this holds whether or not the write
    guard lets the call through). *)
Theorem set_equal_changes_nothing self v w this :
  nodes w !! self = Some this ->
  equal this (value this) v = true ->
  let w' := fst (WritableSignalImpl.set self v w) in
  nodes w' !! self = Some this /\
  producerMayHaveChanged_calls self (trace w')
  = producerMayHaveChanged_calls self (trace w) /\
  dirty w' = dirty w /\
  w' = w.
Proof.
  intros Hnode Heq. cbv zeta.
  assert (Hsame : fst (WritableSignalImpl.set self v w) = w).
  { run_sig. destruct (producerUpdatesAllowed w); simpl; [|reflexivity].
    rewrite Hnode, Heq. reflexivity. }
  rewrite Hsame. auto.
Qed.

(** C2: when writes are allowed and the equality function says the
    current value and the new one differ, [set] stores the new value,
    adds exactly one to the version, calls [producerMayHaveChanged]
    exactly once (which marks the node's consumers dirty), and then
    runs the post-set hook if one is installed. *)
Theorem set_different_stores_and_notifies self v w this :
  nodes w !! self = Some this ->
  producerUpdatesAllowed w = true ->
  equal this (value this) v = false ->
  let w' := fst (WritableSignalImpl.set self v w) in
  (exists this', nodes w' !! self = Some this' /\
     value this' = v /\ valueVersion this' = valueVersion this + 1) /\
  trace w' = trace w ++ [ProducerMayHaveChanged self] ++ postSignalSetFn_events w /\
  producerMayHaveChanged_calls self (trace w')
  = S (producerMayHaveChanged_calls self (trace w)) /\
  dirty w' = dirty w ∪ consumers this.
Proof.
  intros Hnode Hallowed Hneq. cbv zeta.
  assert (Htrace : trace (fst (WritableSignalImpl.set self v w))
                   = trace w ++ [ProducerMayHaveChanged self] ++ postSignalSetFn_events w).
  { run_sig. rewrite Hallowed. simpl. rewrite Hnode, Hneq. simpl.
    rewrite !lookup_alter_eq, Hnode. simpl.
    unfold postSignalSetFn_events.
    destruct (postSignalSetFn w) as [hook|]; simpl.
    - destruct (hook (outside w)) as [e r]. simpl. rewrite <- app_assoc. reflexivity.
    - reflexivity. }
  split; [|split; [exact Htrace|split]].
  - exists (bump_valueVersion (with_value v this)).
    split; [|split; reflexivity].
    run_sig. rewrite Hallowed. simpl. rewrite Hnode, Hneq. simpl.
    rewrite !lookup_alter_eq, Hnode. simpl.
    destruct (postSignalSetFn w) as [hook|]; simpl.
    + destruct (hook (outside w)) as [e r]. simpl.
      rewrite !lookup_alter_eq, Hnode. reflexivity.
    + rewrite !lookup_alter_eq, Hnode. reflexivity.
  - rewrite Htrace, !producerMayHaveChanged_calls_app,
      producerMayHaveChanged_calls_hook. simpl.
    rewrite Nat.eqb_refl. lia.
  - run_sig. rewrite Hallowed. simpl. rewrite Hnode, Hneq. simpl.
    rewrite !lookup_alter_eq, Hnode. simpl.
    destruct (postSignalSetFn w) as [hook|]; simpl.
    + destruct (hook (outside w)) as [e r]. reflexivity.
    + reflexivity.
Qed.

(** A consumer that is computing and has not opted into signal writes
    makes [producerUpdatesAllowed] false. *)
Lemma read_only_pass_refuses_updates w (c : ActiveConsumer) :
  activeConsumer w = Some c ->
  consumerAllowSignalWrites c = false ->
  producerUpdatesAllowed w = false.
Proof. intros Hc Hflag. unfold producerUpdatesAllowed. rewrite Hc. exact Hflag. Qed.

(** C3: while a consumer that has not opted into signal writes is
    computing, producer updates are not allowed, and each of [set],
    [update] and [mutate] completes by throwing the invalid-write error
    to its caller. *)
Theorem write_in_read_only_pass_throws self v (updater : T -> Callback E T)
  (mutator : Mutator T E) w (c : ActiveConsumer) :
  activeConsumer w = Some c ->
  consumerAllowSignalWrites c = false ->
  producerUpdatesAllowed w = false /\
  snd (WritableSignalImpl.set self v w) = Threw InvalidWriteToSignal /\
  snd (WritableSignalImpl.update self updater w) = Threw InvalidWriteToSignal /\
  snd (WritableSignalImpl.mutate self mutator w) = Threw InvalidWriteToSignal.
Proof.
  intros Hc Hflag.
  pose proof (read_only_pass_refuses_updates w c Hc Hflag) as Hrefused.
  rewrite set_refused, update_refused, mutate_refused by exact Hrefused.
  repeat split. exact Hrefused.
Qed.

(** C9: when producer updates are not allowed, [set], [update] and
    [mutate] throw before they touch anything: the whole state is the
    one before the call, so the value and the version are unchanged,
    [producerMayHaveChanged] has not been called, and the updater or
    mutator has not been invoked. *)
Theorem refused_write_touches_nothing self v (updater : T -> Callback E T)
  (mutator : Mutator T E) w :
  producerUpdatesAllowed w = false ->
  WritableSignalImpl.set self v w = (w, Threw InvalidWriteToSignal) /\
  WritableSignalImpl.update self updater w = (w, Threw InvalidWriteToSignal) /\
  WritableSignalImpl.mutate self mutator w = (w, Threw InvalidWriteToSignal) /\
  user_function_calls (trace (fst (WritableSignalImpl.update self updater w)))
  = user_function_calls (trace w) /\
  user_function_calls (trace (fst (WritableSignalImpl.mutate self mutator w)))
  = user_function_calls (trace w).
Proof.
  intros Hrefused.
  rewrite set_refused, update_refused, mutate_refused by exact Hrefused.
  repeat split.
Qed.

(** C6 (as amended): when producer updates are allowed at the time of
    the call, [update(fn)] is the same computation as [set(fn(current))]:
    the same final state (value, version, dirty marks, trace of calls,
    [fn] invoked once on the current value) and the same completion.
    When they are not allowed, [update] throws the invalid-write error
    before it invokes [fn], with the state untouched. *)
Theorem update_is_set_of_updater self (fn : T -> Callback E T) w :
  (producerUpdatesAllowed w = true ->
   WritableSignalImpl.update self fn w = update_spec self fn w) /\
  (producerUpdatesAllowed w = false ->
   WritableSignalImpl.update self fn w = (w, Threw InvalidWriteToSignal)).
Proof.
  split.
  - intros Hallowed.
    unfold WritableSignalImpl.update, update_spec.
    unfold bind at 1 2. unfold gets at 1. rewrite Hallowed. reflexivity.
  - apply update_refused.
Qed.

(** C7: when writes are allowed, [mutate] hands the current value to the
    mutator and, once the mutator has returned, adds one to the version
    and calls [producerMayHaveChanged] once (marking the node's
    consumers dirty), whatever the equality function would say and
    whether or not the mutator changed the value. *)
Theorem mutate_always_notifies self (mutator : Mutator T E) w this v' (e' : E) :
  nodes w !! self = Some this ->
  producerUpdatesAllowed w = true ->
  mutator (value this) (outside w) = (v', e', Returned tt) ->
  let w' := fst (WritableSignalImpl.mutate self mutator w) in
  (exists this', nodes w' !! self = Some this' /\
     value this' = v' /\ valueVersion this' = valueVersion this + 1) /\
  trace w' = trace w ++ [MutatorCalled self (value this); ProducerMayHaveChanged self]
               ++ postSignalSetFn_events w /\
  producerMayHaveChanged_calls self (trace w')
  = S (producerMayHaveChanged_calls self (trace w)) /\
  dirty w' = dirty w ∪ consumers this.
Proof.
  intros Hnode Hallowed Hmut. cbv zeta.
  assert (Hrun : exists r,
    WritableSignalImpl.mutate self mutator w
    = (with_outside (match postSignalSetFn w with
                     | Some hook => fst (hook e')
                     | None => e'
                     end)
         (mkWorld (alter bump_valueVersion self (alter (with_value v') self (nodes w)))
            (fns w) (activeConsumer w) (dirty w ∪ consumers this) (lastRead w)
            (postSignalSetFn w)
            (trace w ++ [MutatorCalled self (value this); ProducerMayHaveChanged self]
               ++ postSignalSetFn_events w)
            (outside w)), r)).
  { run_sig. rewrite Hallowed. simpl. rewrite Hnode. simpl. rewrite Hmut. simpl.
    rewrite !lookup_alter_eq, Hnode. simpl.
    unfold postSignalSetFn_events, with_outside, log. simpl.
    destruct (postSignalSetFn w) as [hook|]; simpl.
    - destruct (hook e') as [e r]. simpl. eexists.
      rewrite <- !app_assoc. reflexivity.
    - eexists. rewrite <- !app_assoc. reflexivity. }
  destruct Hrun as [r Hrun]. rewrite Hrun.
  unfold with_outside. cbn [fst trace nodes dirty].
  split; [|split; [reflexivity|split; [|reflexivity]]].
  - exists (bump_valueVersion (with_value v' this)).
    rewrite !lookup_alter_eq, Hnode. repeat split.
  - rewrite !producerMayHaveChanged_calls_app, producerMayHaveChanged_calls_hook.
    simpl. rewrite Nat.eqb_refl. lia.
Qed.

(** *** The readonly view *)

Lemma asReadonly_run self w this :
  nodes w !! self = Some this ->
  WritableSignalImpl.asReadonly self w
  = match readonlySignal this with
    | Some h => (w, Returned (Some h))
    | None =>
        (with_nodes (alter (with_readonlySignal (Some (length (fns w)))) self)
           (with_fns (fns w ++ [mkSignalFn self false]) w),
         Returned (Some (length (fns w))))
    end.
Proof.
  intros Hnode. run_sig. rewrite Hnode.
  destruct (readonlySignal this) as [h|] eqn:Hview; simpl.
  - rewrite Hnode, Hview. reflexivity.
  - rewrite lookup_alter_eq, Hnode. reflexivity.
Qed.

Lemma signal_run self w this :
  nodes w !! self = Some this ->
  snd (WritableSignalImpl.signal self w) = Returned (value this).
Proof.
  intros Hnode. run_sig. simpl.
  destruct (activeConsumer w) as [c|]; simpl; rewrite Hnode; simpl.
  - rewrite lookup_alter_eq, Hnode. reflexivity.
  - reflexivity.
Qed.

(** What a [set] that returned normally has done to the node and to the
    function objects. *)
Lemma set_returned self v w this w' :
  nodes w !! self = Some this ->
  WritableSignalImpl.set self v w = (w', Returned tt) ->
  fns w' = fns w /\
  nodes w' !! self
  = Some (if equal this (value this) v then this
          else bump_valueVersion (with_value v this)).
Proof.
  intros Hnode. run_sig.
  destruct (producerUpdatesAllowed w); simpl; [|discriminate].
  rewrite Hnode.
  destruct (equal this (value this) v); simpl.
  - intros [= <-]. auto.
  - rewrite !lookup_alter_eq, Hnode. simpl.
    destruct (postSignalSetFn w) as [hook|]; simpl.
    + destruct (hook (outside w)) as [e r]. intros [= <- _]. simpl.
      rewrite !lookup_alter_eq, Hnode. auto.
    + intros [= <-]. simpl. rewrite !lookup_alter_eq, Hnode. auto.
Qed.

(** C8 (as amended): the handle that [asReadonly] returns reads the node
    itself, not a copy.  After a [set(v)] that returned normally, a read
    through a readonly view obtained earlier returns the node's current
    value, the same as a read through the signal itself: this is [v] when
    the equality function told the old value and [v] apart, and the
    retained old value when it did not (then [set] stored nothing). *)
Theorem readonly_view_reads_the_node self v w this h w2 :
  views_consistent w ->
  nodes w !! self = Some this ->
  snd (WritableSignalImpl.asReadonly self w) = Returned (Some h) ->
  WritableSignalImpl.set self v (fst (WritableSignalImpl.asReadonly self w))
  = (w2, Returned tt) ->
  snd (call_signalFn h w2) = snd (WritableSignalImpl.signal self w2) /\
  snd (call_signalFn h w2)
  = Returned (if equal this (value this) v then value this else v).
Proof.
  intros Hwf Hnode Hview Hset.
  rewrite (asReadonly_run self w this Hnode) in Hview, Hset.
  assert (Hread : exists this1,
    nodes (fst (match readonlySignal this with
                | Some h0 => (w, Returned (X:=Thrown) (Some h0))
                | None =>
                    (with_nodes (alter (with_readonlySignal (Some (length (fns w)))) self)
                       (with_fns (fns w ++ [mkSignalFn self false]) w),
                     Returned (Some (length (fns w))))
                end)) !! self = Some this1 /\
    value this1 = value this /\ equal this1 = equal this /\
    fns (fst (match readonlySignal this with
              | Some h0 => (w, Returned (X:=Thrown) (Some h0))
              | None =>
                  (with_nodes (alter (with_readonlySignal (Some (length (fns w)))) self)
                     (with_fns (fns w ++ [mkSignalFn self false]) w),
                   Returned (Some (length (fns w))))
              end)) !! h = Some (mkSignalFn self false)).
  { destruct (readonlySignal this) as [h0|] eqn:Hfield; simpl in *.
    - injection Hview as ->. exists this. repeat split; [exact Hnode|].
      exact (Hwf self this h Hnode Hfield).
    - injection Hview as <-. eexists.
      rewrite lookup_alter_eq, Hnode. simpl. repeat split.
      apply list_lookup_middle. reflexivity. }
  destruct Hread as (this1 & Hnode1 & Hvalue1 & Hequal1 & Hfn).
  destruct (set_returned self v _ this1 w2 Hnode1 Hset) as [Hfns Hnode2].
  rewrite Hequal1, Hvalue1 in Hnode2.
  assert (Hcall : snd (call_signalFn h w2) = snd (WritableSignalImpl.signal self w2)).
  { unfold call_signalFn, bind, gets. rewrite Hfns, Hfn. reflexivity. }
  split; [exact Hcall|].
  rewrite Hcall, (signal_run self w2 _ Hnode2).
  destruct (equal this (value this) v); simpl; congruence.
Qed.

(** *** Operations that leave the readonly views alone *)

Lemma same_views_refl w : same_views w w.
Proof. split; reflexivity. Qed.

Lemma same_views_trans w1 w2 w3 :
  same_views w1 w2 -> same_views w2 w3 -> same_views w1 w3.
Proof.
  intros [Hf12 Hn12] [Hf23 Hn23]. split; [congruence|].
  intros s. rewrite Hn23. apply Hn12.
Qed.

Lemma keeps_views_ret {A} (a : A) : keeps_views (T:=T) (E:=E) (ret a).
Proof. intros w. apply same_views_refl. Qed.

Lemma keeps_views_throw {A} (x : Thrown) : keeps_views (T:=T) (E:=E) (A:=A) (throw x).
Proof. intros w. apply same_views_refl. Qed.

Lemma keeps_views_gets {A} (f : World T E -> A) : keeps_views (gets f).
Proof. intros w. apply same_views_refl. Qed.

Lemma keeps_views_bind {A B} (c : Sig T E A) (k : A -> Sig T E B) :
  keeps_views c -> (forall a, keeps_views (k a)) -> keeps_views (bind c k).
Proof.
  intros Hc Hk w. unfold bind. specialize (Hc w).
  destruct (c w) as [w1 [a|x]]; simpl in *.
  - eapply same_views_trans; [exact Hc | apply Hk].
  - exact Hc.
Qed.

Lemma keeps_views_modify (f : World T E -> World T E) :
  (forall w, same_views w (f w)) -> keeps_views (modify f).
Proof. intros Hf w. apply Hf. Qed.

Lemma keeps_views_this_node self : keeps_views (T:=T) (E:=E) (this_node self).
Proof.
  intros w. unfold this_node. destruct (nodes w !! self); apply same_views_refl.
Qed.

Lemma same_views_alter (f : SignalNode T -> SignalNode T) self w :
  (forall n, readonlySignal (f n) = readonlySignal n) ->
  same_views w (with_nodes (alter f self) w).
Proof.
  intros Hf. split; [reflexivity|]. intros s. simpl.
  destruct (decide (self = s)) as [->|Hne].
  - rewrite lookup_alter_eq. destruct (nodes w !! s) as [n|]; simpl; [|reflexivity].
    rewrite Hf. reflexivity.
  - rewrite lookup_alter_ne by exact Hne. reflexivity.
Qed.

Lemma keeps_views_update_node self (f : SignalNode T -> SignalNode T) :
  (forall n, readonlySignal (f n) = readonlySignal n) ->
  keeps_views (E:=E) (update_node self f).
Proof. intros Hf w. apply same_views_alter, Hf. Qed.

Lemma keeps_views_run_callback {A} (c : Callback E A) :
  keeps_views (T:=T) (run_callback c).
Proof.
  intros w. unfold run_callback. destruct (c (outside w)) as [e r].
  split; reflexivity.
Qed.

Ltac keeps_views_step :=
  first
    [ apply keeps_views_bind; [|intros ?]
    | apply keeps_views_ret
    | apply keeps_views_throw
    | apply keeps_views_gets
    | apply keeps_views_this_node
    | apply keeps_views_run_callback
    | apply keeps_views_update_node; intros ?; reflexivity
    | apply keeps_views_modify; intros ?; split; reflexivity
    | match goal with
      | |- keeps_views (if ?b then _ else _) => destruct b
      | |- keeps_views (match ?o with Some _ => _ | None => _ end) => destruct o
      end ].

Lemma keeps_views_producerMayHaveChanged self :
  keeps_views (T:=T) (E:=E) (producerMayHaveChanged self).
Proof. unfold producerMayHaveChanged. repeat keeps_views_step. Qed.

Lemma keeps_views_call_postSignalSetFn :
  keeps_views (T:=T) (E:=E) call_postSignalSetFn.
Proof. unfold call_postSignalSetFn. repeat keeps_views_step. Qed.

Lemma keeps_views_call_mutator self (mutator : Mutator T E) v :
  keeps_views (call_mutator self mutator v).
Proof.
  unfold call_mutator. keeps_views_step; [keeps_views_step|].
  intros w. destruct (mutator v (outside w)) as [[v' e] r].
  apply (same_views_alter (with_value v') self w). reflexivity.
Qed.

Lemma keeps_views_set self v : keeps_views (E:=E) (WritableSignalImpl.set self v).
Proof.
  unfold WritableSignalImpl.set, throwInvalidWriteToSignalError.
  repeat first [ apply keeps_views_producerMayHaveChanged
               | apply keeps_views_call_postSignalSetFn
               | keeps_views_step ].
Qed.

Lemma keeps_views_update self (updater : T -> Callback E T) :
  keeps_views (WritableSignalImpl.update self updater).
Proof.
  unfold WritableSignalImpl.update, throwInvalidWriteToSignalError, call_updater.
  repeat first [ apply keeps_views_set | keeps_views_step ].
Qed.

Lemma keeps_views_mutate self (mutator : Mutator T E) :
  keeps_views (WritableSignalImpl.mutate self mutator).
Proof.
  unfold WritableSignalImpl.mutate, throwInvalidWriteToSignalError.
  repeat first [ apply keeps_views_producerMayHaveChanged
               | apply keeps_views_call_postSignalSetFn
               | apply keeps_views_call_mutator
               | keeps_views_step ].
Qed.

Lemma keeps_views_signal self :
  keeps_views (T:=T) (E:=E) (WritableSignalImpl.signal self).
Proof.
  unfold WritableSignalImpl.signal, producerAccessed. repeat keeps_views_step.
Qed.

Section WithDefaultEquals.
Context `{EqDecision T}.

Lemma keeps_views_call_signalFn f : keeps_views (T:=T) (E:=E) (call_signalFn f).
Proof.
  unfold call_signalFn.
  repeat first [ apply keeps_views_signal | keeps_views_step ].
Qed.

Lemma has_view_same_views self h w w' :
  same_views w w' -> has_view self h w -> has_view self h w'.
Proof.
  intros [_ Hn] (this & Hnode & Hfield).
  specialize (Hn self). rewrite Hnode in Hn. simpl in Hn.
  destruct (nodes w' !! self) as [this'|] eqn:Hnode'; simpl in Hn; [|discriminate].
  exists this'. split; [exact Hnode'|]. congruence.
Qed.

Lemma asReadonly_missing self w :
  nodes w !! self = None ->
  WritableSignalImpl.asReadonly (T:=T) (E:=E) self w = (w, Threw TypeError).
Proof. intros Hnode. run_sig. rewrite Hnode. reflexivity. Qed.

Lemma fresh_node_is_new w self this :
  nodes w !! self = Some this -> fresh (dom (nodes w)) <> self.
Proof.
  intros Hnode Heq. apply (is_fresh (dom (nodes w))).
  rewrite Heq. eapply elem_of_dom_2, Hnode.
Qed.

Lemma step_has_view self h w (o : Op T E) :
  has_view self h w -> has_view self h (step w o).
Proof.
  intros Hview.
  destruct o as [initialValue equalOption | s v | s updater | s mutator
                | s | f | fn | c]; simpl.
  - destruct Hview as (this & Hnode & Hfield).
    exists this. split; [|exact Hfield].
    unfold signal. run_sig. simpl.
    rewrite lookup_insert_ne by exact (fresh_node_is_new w self this Hnode).
    exact Hnode.
  - eapply has_view_same_views; [apply keeps_views_set | exact Hview].
  - eapply has_view_same_views; [apply keeps_views_update | exact Hview].
  - eapply has_view_same_views; [apply keeps_views_mutate | exact Hview].
  - destruct (nodes w !! s) as [n|] eqn:Hs.
    + rewrite (asReadonly_run s w n Hs).
      destruct (readonlySignal n) as [h0|] eqn:Hfield0; simpl; [exact Hview|].
      destruct Hview as (this & Hnode & Hfield).
      exists this. split; [|exact Hfield].
      destruct (decide (s = self)) as [->|Hne]; [congruence|].
      simpl. rewrite lookup_alter_ne by exact Hne. exact Hnode.
    + rewrite (asReadonly_missing s w Hs). exact Hview.
  - eapply has_view_same_views; [apply keeps_views_call_signalFn | exact Hview].
  - exact Hview.
  - exact Hview.
Qed.

Lemma run_ops_has_view self h (ops : list (Op T E)) w :
  has_view self h w -> has_view self h (run_ops ops w).
Proof.
  revert w. induction ops as [|o ops IH]; intros w Hview; simpl.
  - exact Hview.
  - apply IH, step_has_view, Hview.
Qed.

(** *** Invariants of the worlds a program can reach *)

Lemma readonly_views_app self (l1 l2 : list SignalFn) :
  readonly_views self (l1 ++ l2)
  = (readonly_views self l1 + readonly_views self l2)%nat.
Proof. induction l1 as [|fn l1 IH]; simpl; [reflexivity|]. rewrite IH. lia. Qed.

Lemma views_consistent_same_views w w' :
  same_views w w' -> views_consistent w -> views_consistent w'.
Proof.
  intros [Hfns Hn] Hwf self this' h Hnode' Hfield'.
  specialize (Hn self). rewrite Hnode' in Hn. simpl in Hn.
  destruct (nodes w !! self) as [this|] eqn:Hnode; simpl in Hn; [|discriminate].
  rewrite Hfns. apply (Hwf self this h Hnode). congruence.
Qed.

Lemma views_counted_same_views w w' :
  same_views w w' -> views_counted w -> views_counted w'.
Proof. intros [Hfns Hn] Hcount self. rewrite Hfns, Hn. apply Hcount. Qed.

Lemma signal_factory_run (initialValue : T) (equalOption : option (T -> T -> bool)) w :
  fst (signal initialValue equalOption w)
  = with_fns (fns w ++ [mkSignalFn (fresh (dom (nodes w))) true])
      (with_nodes
         (insert (fresh (dom (nodes w)))
            (mkSignalNode initialValue (default defaultEquals equalOption) 0 None ∅))
         w).
Proof. reflexivity. Qed.

Lemma fresh_node_is_missing w : nodes w !! fresh (dom (nodes w)) = None.
Proof. apply not_elem_of_dom, is_fresh. Qed.

Lemma step_views_consistent w (o : Op T E) :
  views_consistent w -> views_consistent (step w o).
Proof.
  intros Hwf.
  destruct o as [initialValue equalOption | s v | s updater | s mutator
                | s | f | fn | c]; unfold step.
  - rewrite signal_factory_run. intros self this h. simpl.
    destruct (decide (fresh (dom (nodes w)) = self)) as [<-|Hne].
    + rewrite lookup_insert_eq. intros [= <-]. discriminate.
    + rewrite lookup_insert_ne by exact Hne. intros Hnode Hfield.
      apply lookup_app_l_Some, (Hwf self this h Hnode Hfield).
  - eapply views_consistent_same_views; [apply keeps_views_set | exact Hwf].
  - eapply views_consistent_same_views; [apply keeps_views_update | exact Hwf].
  - eapply views_consistent_same_views; [apply keeps_views_mutate | exact Hwf].
  - destruct (nodes w !! s) as [n|] eqn:Hs.
    + rewrite (asReadonly_run s w n Hs).
      destruct (readonlySignal n) as [h0|] eqn:Hfield0; simpl; [exact Hwf|].
      intros self this h. simpl.
      destruct (decide (s = self)) as [->|Hne].
      * rewrite lookup_alter_eq, Hs. simpl. intros [= <-]. simpl. intros [= <-].
        apply list_lookup_middle. reflexivity.
      * rewrite lookup_alter_ne by exact Hne. intros Hnode Hfield.
        apply lookup_app_l_Some, (Hwf self this h Hnode Hfield).
    + rewrite (asReadonly_missing s w Hs). exact Hwf.
  - eapply views_consistent_same_views; [apply keeps_views_call_signalFn | exact Hwf].
  - exact Hwf.
  - exact Hwf.
Qed.

Lemma step_views_counted w (o : Op T E) :
  views_counted w -> views_counted (step w o).
Proof.
  intros Hcount.
  destruct o as [initialValue equalOption | s v | s updater | s mutator
                | s | f | fn | c]; unfold step.
  - rewrite signal_factory_run. intros self. simpl.
    rewrite readonly_views_app, Hcount. simpl.
    rewrite andb_false_r.
    destruct (decide (fresh (dom (nodes w)) = self)) as [<-|Hne].
    + rewrite lookup_insert_eq, fresh_node_is_missing. reflexivity.
    + rewrite lookup_insert_ne by exact Hne. lia.
  - eapply views_counted_same_views; [apply keeps_views_set | exact Hcount].
  - eapply views_counted_same_views; [apply keeps_views_update | exact Hcount].
  - eapply views_counted_same_views; [apply keeps_views_mutate | exact Hcount].
  - destruct (nodes w !! s) as [n|] eqn:Hs.
    + rewrite (asReadonly_run s w n Hs).
      destruct (readonlySignal n) as [h0|] eqn:Hfield0; simpl; [exact Hcount|].
      intros self. simpl. rewrite readonly_views_app, Hcount. simpl.
      rewrite andb_true_r.
      destruct (decide (s = self)) as [->|Hne].
      * rewrite Nat.eqb_refl, lookup_alter_eq, Hs. simpl. rewrite Hfield0.
        reflexivity.
      * rewrite lookup_alter_ne by exact Hne.
        apply Nat.eqb_neq in Hne. rewrite Hne. lia.
    + rewrite (asReadonly_missing s w Hs). exact Hcount.
  - eapply views_counted_same_views; [apply keeps_views_call_signalFn | exact Hcount].
  - exact Hcount.
  - exact Hcount.
Qed.

(** Starting from a graph with no node, whatever the program does,
    the [readonlySignal] fields point at views of their own node and
    no node ever has more than one readonly view. *)
Lemma reachable_views (ops : list (Op T E)) (e : E) :
  let w := run_ops ops (empty_world e) in
  views_consistent w /\ views_counted w /\
  forall self, (readonly_views self (fns w) <= 1)%nat.
Proof.
  cbv zeta.
  assert (Hinv : forall w : World T E,
            views_consistent w /\ views_counted w ->
            views_consistent (run_ops ops w) /\ views_counted (run_ops ops w)).
  { induction ops as [|o ops IH]; intros w [Hwf Hcount]; simpl; [auto|].
    apply IH. split; [apply step_views_consistent | apply step_views_counted];
      assumption. }
  destruct (Hinv (empty_world e)) as [Hwf Hcount].
  { split.
    - intros self this h Hnode. simpl in Hnode. rewrite lookup_empty in Hnode.
      discriminate.
    - intros self. simpl. rewrite lookup_empty. reflexivity. }
  split; [exact Hwf|]. split; [exact Hcount|].
  intros self. rewrite Hcount.
  destruct (nodes (run_ops ops (empty_world e)) !! self) as [this|]; simpl; [|lia].
  destruct (readonlySignal this); simpl; lia.
Qed.
Lemma run_ops_views_consistent (ops : list (Op T E)) w :
  views_consistent w -> views_consistent (run_ops ops w).
Proof.
  revert w. induction ops as [|o ops IH]; intros w Hwf; simpl.
  - exact Hwf.
  - apply IH, step_views_consistent, Hwf.
Qed.

(** C10: the readonly view of a signal is made at most once, and every
    [asReadonly] returns that one handle.  In a graph whose
    [readonlySignal] fields hold views of their own node (as in every
    graph a program can reach), the handle returned is a function object
    made for this signal without the writable API, and it is what the
    [readonlySignal] field holds from then on.  On a signal without a
    view the call creates exactly that function object, a new one, and
    nothing else; on a signal with a view it returns the view there is
    and changes nothing.  From then on, whatever is done to the graph in
    between, every [asReadonly] on the same signal returns the identical
    handle, still the same function object, and changes nothing (so
    makes no further view). *)
Theorem asReadonly_returns_the_same_view self w this :
  views_consistent w ->
  nodes w !! self = Some this ->
  exists h,
    snd (WritableSignalImpl.asReadonly self w) = Returned (Some h) /\
    fns (fst (WritableSignalImpl.asReadonly self w)) !! h
    = Some (mkSignalFn self false) /\
    has_view self h (fst (WritableSignalImpl.asReadonly self w)) /\
    match readonlySignal this with
    | None =>
        h = length (fns w) /\
        fns w !! h = None /\
        fns (fst (WritableSignalImpl.asReadonly self w))
        = fns w ++ [mkSignalFn self false]
    | Some h0 =>
        h = h0 /\ fst (WritableSignalImpl.asReadonly self w) = w
    end /\
    (length (fns (fst (WritableSignalImpl.asReadonly self w)))
     <= S (length (fns w)))%nat /\
    forall ops : list (Op T E),
      let w2 := run_ops ops (fst (WritableSignalImpl.asReadonly self w)) in
      WritableSignalImpl.asReadonly self w2 = (w2, Returned (Some h)) /\
      fns w2 !! h = Some (mkSignalFn self false).
Proof.
  intros Hwf Hnode.
  assert (Hwf1 : views_consistent (fst (WritableSignalImpl.asReadonly self w))).
  { apply (step_views_consistent w (OpAsReadonly self) Hwf). }
  assert (Hfirst : exists h,
    snd (WritableSignalImpl.asReadonly self w) = Returned (Some h) /\
    has_view self h (fst (WritableSignalImpl.asReadonly self w)) /\
    match readonlySignal this with
    | None =>
        h = length (fns w) /\
        fns w !! h = None /\
        fns (fst (WritableSignalImpl.asReadonly self w))
        = fns w ++ [mkSignalFn self false]
    | Some h0 =>
        h = h0 /\ fst (WritableSignalImpl.asReadonly self w) = w
    end /\
    (length (fns (fst (WritableSignalImpl.asReadonly self w)))
     <= S (length (fns w)))%nat).
  { rewrite (asReadonly_run self w this Hnode).
    destruct (readonlySignal this) as [h|] eqn:Hfield; simpl.
    - exists h. split; [reflexivity|]. split; [exists this; auto|].
      split; [split; reflexivity | lia].
    - exists (length (fns w)). split; [reflexivity|]. split.
      + eexists. simpl. rewrite lookup_alter_eq, Hnode. simpl. split; reflexivity.
      + split.
        * split; [reflexivity|]. split; [|reflexivity].
          apply lookup_ge_None. lia.
        * rewrite length_app. simpl. lia. }
  destruct Hfirst as (h & Hresult & Hview & Hcreated & Hlen).
  assert (Hobject : forall w', views_consistent w' -> has_view self h w' ->
                               fns w' !! h = Some (mkSignalFn self false)).
  { intros w' Hwf' (this' & Hnode' & Hfield'). exact (Hwf' self this' h Hnode' Hfield'). }
  exists h. split; [exact Hresult|].
  split; [exact (Hobject _ Hwf1 Hview)|].
  split; [exact Hview|]. split; [exact Hcreated|]. split; [exact Hlen|].
  intros ops w2.
  pose proof (run_ops_has_view self h ops _ Hview) as Hview2.
  pose proof (run_ops_views_consistent ops _ Hwf1) as Hwf2.
  fold w2 in Hview2, Hwf2.
  split; [|exact (Hobject w2 Hwf2 Hview2)].
  destruct Hview2 as (this2 & Hnode2 & Hfield2).
  rewrite (asReadonly_run self w2 this2 Hnode2), Hfield2. reflexivity.
Qed.
End WithDefaultEquals.
End SignalFacts.

(** ** The properties at concrete inputs *)

Section InjectionExamples.
Import Injection InjectionSamples.

(** [fn] throws inside a nested context: the error comes out and both
    slots are back to what they were. *)
Lemma runInInjectionContext_restores_witness :
  guard_passes live_injector = true /\
  snd (runInInjectionContext live_injector failing_fn nested_context)
  = Threw (UserThrown 42) /\
  currentInjector (fst (runInInjectionContext live_injector failing_fn nested_context))
  = currentInjector nested_context /\
  injectImplementation
    (fst (runInInjectionContext live_injector failing_fn nested_context))
  = injectImplementation nested_context.
Proof.
  split; [reflexivity|].
  destruct (runInInjectionContext_restores live_injector failing_fn nested_context)
    as (Hinjector & Himpl & Hrun & _).
  split; [exact (proj1 (Hrun eq_refl))|]. split; [exact Hinjector | exact Himpl].
Defined.

(** C4 as stated fails on a destroyed [R3Injector]: the guard throws,
    [fn] is never entered (its counter stays at 0) and the call does not
    complete the way [fn] would have. *)
Lemma runInInjectionContext_destroyed_skips_fn :
  let finished := runInInjectionContext destroyed_injector counting_fn bare_context in
  let entered := counting_fn (installed destroyed_injector bare_context) in
  snd entered = Returned 7%nat /\
  snd finished <> snd entered /\
  outside (fst entered) = 1%nat /\
  outside (fst finished) = 0%nat.
Proof.
  cbv zeta. vm_compute.
  split; [reflexivity|]. split; [discriminate|]. split; reflexivity.
Qed.

Lemma assertInInjectionContext_throws_iff_witness :
  (exists x, snd (assertInInjectionContext inject_fn bare_context) = Threw x) /\
  snd (assertInInjectionContext inject_fn nested_context) = Returned tt.
Proof.
  split.
  - apply (proj1 (proj2 (assertInInjectionContext_throws_iff inject_fn bare_context))).
    split; reflexivity.
  - reflexivity.
Defined.

(** C5 as stated fails in production mode: the error that is thrown has
    no message text, so nothing in it names the caller. *)
Lemma assertInInjectionContext_production_no_message :
  snd (assertInInjectionContext inject_fn production_context)
  = Threw (RuntimeError MISSING_INJECTION_CONTEXT NoMessage) /\
  ~ (exists text,
       snd (assertInInjectionContext inject_fn production_context)
       = Threw (RuntimeError MISSING_INJECTION_CONTEXT (Message text))).
Proof.
  split; [reflexivity|]. intros [text Htext]. vm_compute in Htext. discriminate.
Qed.
End InjectionExamples.

Section SignalExamples.
Import Signals SignalSamples.

Lemma five_has_node : nodes five !! 0%nat = Some five_node.
Proof. vm_compute. reflexivity. Qed.

Lemma five_is_reachable : five = run_ops [OpSignal 5 None] (empty_world 0%nat).
Proof. reflexivity. Qed.

(** [s = signal(5); s.set(5)]. *)
Lemma set_equal_changes_nothing_witness :
  nodes five !! 0%nat = Some five_node /\
  equal five_node (value five_node) 5 = true /\
  fst (WritableSignalImpl.set 0%nat 5 five) = five.
Proof.
  split; [exact five_has_node|]. split; [reflexivity|].
  apply (set_equal_changes_nothing 0%nat 5 five five_node five_has_node eq_refl).
Defined.

(** [s = signal(5); s.set(6)]. *)
Lemma set_different_stores_and_notifies_witness :
  nodes five !! 0%nat = Some five_node /\
  producerUpdatesAllowed five = true /\
  equal five_node (value five_node) 6 = false /\
  producerMayHaveChanged_calls 0%nat (trace (fst (WritableSignalImpl.set 0%nat 6 five)))
  = S (producerMayHaveChanged_calls 0%nat (trace five)).
Proof.
  split; [exact five_has_node|]. split; [reflexivity|]. split; [reflexivity|].
  apply (set_different_stores_and_notifies 0%nat 6 five five_node five_has_node
           eq_refl eq_refl).
Defined.

Lemma write_in_read_only_pass_throws_witness :
  activeConsumer five_read_only = Some (mkActiveConsumer 3 false) /\
  snd (WritableSignalImpl.set 0%nat 6 five_read_only) = Threw InvalidWriteToSignal /\
  snd (WritableSignalImpl.update 0%nat increment five_read_only)
  = Threw InvalidWriteToSignal /\
  snd (WritableSignalImpl.mutate 0%nat touch five_read_only)
  = Threw InvalidWriteToSignal.
Proof.
  split; [reflexivity|].
  apply (proj2 (write_in_read_only_pass_throws 0%nat 6 increment touch five_read_only
                  (mkActiveConsumer 3 false) eq_refl eq_refl)).
Defined.

Lemma refused_write_touches_nothing_witness :
  producerUpdatesAllowed five_read_only = false /\
  WritableSignalImpl.update 0%nat increment five_read_only
  = (five_read_only, Threw InvalidWriteToSignal).
Proof.
  split; [reflexivity|].
  apply (refused_write_touches_nothing 0%nat 6 increment touch five_read_only eq_refl).
Defined.

Lemma update_is_set_of_updater_witness :
  producerUpdatesAllowed five = true /\
  WritableSignalImpl.update 0%nat increment five = update_spec 0%nat increment five.
Proof.
  split; [reflexivity|].
  apply (proj1 (update_is_set_of_updater 0%nat increment five) eq_refl).
Defined.

(** C6 as stated fails when the write is refused: [update] throws before
    it calls the updater, whereas [set(fn(current))] has already called
    it when [set] throws. *)
Lemma update_refused_skips_updater :
  WritableSignalImpl.update 0%nat increment five_read_only
  <> update_spec 0%nat increment five_read_only /\
  user_function_calls
    (trace (fst (WritableSignalImpl.update 0%nat increment five_read_only))) = 0%nat /\
  user_function_calls
    (trace (fst (update_spec 0%nat increment five_read_only))) = 1%nat /\
  outside (fst (WritableSignalImpl.update 0%nat increment five_read_only)) = 0%nat /\
  outside (fst (update_spec 0%nat increment five_read_only)) = 1%nat.
Proof.
  split.
  - intros Heq. apply (f_equal (fun r => outside (fst r))) in Heq.
    vm_compute in Heq. discriminate.
  - repeat split; vm_compute; reflexivity.
Qed.

(** [s = signal(5); s.mutate(v => {})]: the value is still 5, the
    version is bumped and the consumers are notified. *)
Lemma mutate_always_notifies_witness :
  nodes five !! 0%nat = Some five_node /\
  producerUpdatesAllowed five = true /\
  touch (value five_node) (outside five) = (5, 1%nat, Returned tt) /\
  (exists this', nodes (fst (WritableSignalImpl.mutate 0%nat touch five)) !! 0%nat
                 = Some this' /\
     value this' = 5 /\ valueVersion this' = valueVersion five_node + 1).
Proof.
  split; [exact five_has_node|]. split; [reflexivity|]. split; [reflexivity|].
  apply (mutate_always_notifies 0%nat touch five five_node 5 1%nat five_has_node
           eq_refl eq_refl).
Defined.

Lemma readonly_view_reads_the_node_witness :
  views_consistent five /\
  nodes five !! 0%nat = Some five_node /\
  snd (WritableSignalImpl.asReadonly 0%nat five) = Returned (Some 1%nat) /\
  snd (WritableSignalImpl.set 0%nat 6 (fst (WritableSignalImpl.asReadonly 0%nat five)))
  = Returned tt /\
  snd (call_signalFn 1%nat
         (fst (WritableSignalImpl.set 0%nat 6
                 (fst (WritableSignalImpl.asReadonly 0%nat five)))))
  = Returned 6.
Proof.
  assert (Hwf : views_consistent five).
  { rewrite five_is_reachable. apply (reachable_views [OpSignal 5 None] 0%nat). }
  split; [exact Hwf|]. split; [exact five_has_node|].
  split; [reflexivity|]. split; [reflexivity|].
  apply (readonly_view_reads_the_node 0%nat 6 five five_node 1%nat
           (fst (WritableSignalImpl.set 0%nat 6
                   (fst (WritableSignalImpl.asReadonly 0%nat five))))
           Hwf five_has_node eq_refl eq_refl).
Defined.

(** C8 as stated fails for a signal whose equality function does not
    tell 1 and 2 apart: [s.set(2)] returns normally, yet the readonly
    view (function object 1) still reads 1. *)
Lemma readonly_view_keeps_equal_value :
  let w1 := fst (WritableSignalImpl.asReadonly 0%nat lenient) in
  let w2 := fst (WritableSignalImpl.set 0%nat 2 w1) in
  snd (WritableSignalImpl.asReadonly 0%nat lenient) = Returned (Some 1%nat) /\
  snd (WritableSignalImpl.set 0%nat 2 w1) = Returned tt /\
  snd (call_signalFn 1%nat w2) = Returned 1 /\
  snd (call_signalFn 1%nat w2) <> Returned 2.
Proof.
  cbv zeta. repeat split; try (vm_compute; reflexivity).
  vm_compute. discriminate.
Qed.

Lemma asReadonly_returns_the_same_view_witness :
  views_consistent five /\
  nodes five !! 0%nat = Some five_node /\
  exists h,
    snd (WritableSignalImpl.asReadonly 0%nat five) = Returned (Some h) /\
    fns (fst (WritableSignalImpl.asReadonly 0%nat five)) !! h
    = Some (mkSignalFn 0%nat false) /\
    WritableSignalImpl.asReadonly 0%nat
      (run_ops [OpSet 0%nat 6; OpAsReadonly 0%nat]
         (fst (WritableSignalImpl.asReadonly 0%nat five)))
    = (run_ops [OpSet 0%nat 6; OpAsReadonly 0%nat]
         (fst (WritableSignalImpl.asReadonly 0%nat five)),
       Returned (Some h)).
Proof.
  assert (Hwf : views_consistent five).
  { rewrite five_is_reachable. apply (reachable_views [OpSignal 5 None] 0%nat). }
  split; [exact Hwf|]. split; [exact five_has_node|].
  destruct (asReadonly_returns_the_same_view 0%nat five five_node Hwf five_has_node)
    as (h & Hfirst & Hobject & _ & _ & _ & Hlater).
  exists h. split; [exact Hfirst|]. split; [exact Hobject|].
  apply (proj1 (Hlater [OpSet 0%nat 6; OpAsReadonly 0%nat])).
Defined.
End SignalExamples.

(** ** Further properties of the injection-context bridge *)

Section InjectionScoping.
Import Injection.
Context {E : Type}.

(** X1: inside [runInInjectionContext], [assertInInjectionContext] passes:
    for an injector that passes the guard, running the assertion as [fn]
    returns normally whatever the context was before, and the context is
    afterwards exactly what it was. *)
Theorem assert_passes_inside_runInInjectionContext (injector : Injector)
  (debugFn : JsFunction) (c : Context E) :
  guard_passes injector = true ->
  runInInjectionContext injector (assertInInjectionContext debugFn) c
  = (c, Returned tt).
Proof.
  intros Hguard.
  rewrite (runInInjectionContext_unfold injector _ c Hguard).
  destruct c as [cur impl dev out]. reflexivity.
Qed.

(** X2: the context does not outlive the call.  Started where neither an
    injector nor an inject implementation is installed, with [fn]
    returning normally and leaving both slots alone or not,
    [assertInInjectionContext] right after [runInInjectionContext] throws
    the MISSING_INJECTION_CONTEXT error. *)
Theorem assert_fails_after_runInInjectionContext {R} (injector : Injector)
  (fn : DI E R) (debugFn : JsFunction) (c : Context E) (r : R) :
  guard_passes injector = true ->
  injector_truthy (currentInjector c) = false ->
  injectImplementation c = None ->
  snd (fn (installed injector c)) = Returned r ->
  exists message,
    snd ((runInInjectionContext injector fn ;; assertInInjectionContext debugFn) c)
    = Threw (RuntimeError MISSING_INJECTION_CONTEXT message).
Proof.
  intros Hguard Hcur Himpl Hfn.
  unfold bind at 1.
  rewrite (runInInjectionContext_unfold injector fn c Hguard).
  unfold try_finally.
  destruct (fn (installed injector c)) as [c1 r1]. simpl in Hfn. subst r1.
  simpl. unfold assertInInjectionContext, getInjectImplementation,
    getCurrentInjector, bind, gets, throw. simpl.
  rewrite Himpl, Hcur. simpl. eexists. reflexivity.
Qed.

(** X3: calls nest.  Inside an outer [runInInjectionContext], an inner one
    makes its own injector current while its [fn] runs, and when it has
    returned the outer injector is current again; after the outer call the
    context is what it was at the start. *)
Theorem runInInjectionContext_nests (outer inner : Injector) (c : Context E) :
  guard_passes outer = true ->
  guard_passes inner = true ->
  runInInjectionContext outer
    (during <- runInInjectionContext inner getCurrentInjector ;;
     after <- getCurrentInjector ;;
     ret (during, after)) c
  = (c, Returned (SlotInjector inner, SlotInjector outer)).
Proof.
  intros Houter Hinner.
  rewrite (runInInjectionContext_unfold outer _ c Houter).
  unfold try_finally, bind at 1.
  rewrite (runInInjectionContext_unfold inner _ _ Hinner).
  destruct c as [cur impl dev out]. reflexivity.
Qed.
End InjectionScoping.

(** ** Further properties of writable signals *)

Section SignalExtras.
Import Signals SignalFrames.
Context {T : Type} {E : Type}.
Implicit Types (w : World T E) (self : nat) (this : SignalNode T) (v : T).

Ltac run_ops_sig :=
  unfold WritableSignalImpl.set, WritableSignalImpl.update,
    WritableSignalImpl.mutate, WritableSignalImpl.signal,
    WritableSignalImpl.asReadonly, setPostSignalSetFn,
    throwInvalidWriteToSignalError, producerMayHaveChanged, producerAccessed,
    createSignalFromFunction, call_postSignalSetFn, call_updater, call_mutator,
    run_callback, update_node, this_node, bind, gets, modify, throw, ret.

(** X5: an updater that throws leaves the signal alone.  [update] rethrows
    the updater's error; the node (value, version) is the one before the
    call, [producerMayHaveChanged] is not called and no consumer is marked
    dirty; only the updater's call and what it did outside remain. *)
Theorem update_rethrows_updater_error self (updater : T -> Callback E T) w this
  (e' : E) (x : Thrown) :
  nodes w !! self = Some this ->
  producerUpdatesAllowed w = true ->
  updater (value this) (outside w) = (e', Threw x) ->
  let r := WritableSignalImpl.update self updater w in
  snd r = Threw x /\
  nodes (fst r) = nodes w /\
  dirty (fst r) = dirty w /\
  trace (fst r) = trace w ++ [UpdaterCalled self (value this)] /\
  outside (fst r) = e'.
Proof.
  intros Hnode Hallowed Hup. cbv zeta.
  run_ops_sig. rewrite Hallowed. simpl. rewrite Hnode. simpl. rewrite Hup.
  repeat split.
Qed.

(** X6: a mutator that throws stops [mutate] before the version is
    touched.  The error is rethrown, the version is the old one,
    [producerMayHaveChanged] is not called and no consumer is marked
    dirty, although the value is whatever the mutator had made of it. *)
Theorem mutate_rethrows_mutator_error self (mutator : Mutator T E) w this v'
  (e' : E) (x : Thrown) :
  nodes w !! self = Some this ->
  producerUpdatesAllowed w = true ->
  mutator (value this) (outside w) = (v', e', Threw x) ->
  let r := WritableSignalImpl.mutate self mutator w in
  snd r = Threw x /\
  nodes (fst r) !! self = Some (with_value v' this) /\
  dirty (fst r) = dirty w /\
  trace (fst r) = trace w ++ [MutatorCalled self (value this)].
Proof.
  intros Hnode Hallowed Hmut. cbv zeta.
  run_ops_sig. rewrite Hallowed. simpl. rewrite Hnode. simpl. rewrite Hmut.
  simpl. rewrite lookup_alter_eq, Hnode. repeat split.
Qed.

(** X7: a post-set hook that throws does not undo the write.  [set]
    rethrows the hook's error, but the node already holds the new value
    with its version bumped, and the node's consumers are marked dirty. *)
Theorem set_keeps_write_when_hook_throws self v w this (hook : Callback E unit)
  (e' : E) (x : Thrown) :
  nodes w !! self = Some this ->
  producerUpdatesAllowed w = true ->
  equal this (value this) v = false ->
  postSignalSetFn w = Some hook ->
  hook (outside w) = (e', Threw x) ->
  let r := WritableSignalImpl.set self v w in
  snd r = Threw x /\
  nodes (fst r) !! self = Some (bump_valueVersion (with_value v this)) /\
  dirty (fst r) = dirty w ∪ consumers this.
Proof.
  intros Hnode Hallowed Hneq Hhook Hrun. cbv zeta.
  run_ops_sig. rewrite Hallowed. simpl. rewrite Hnode, Hneq. simpl.
  rewrite !lookup_alter_eq, Hnode. simpl. rewrite Hhook. simpl. rewrite Hrun.
  simpl. rewrite !lookup_alter_eq, Hnode. repeat split.
Qed.

(** X10: with an equality function that holds [v] equal to itself, a
    second [set(v)] right after a [set(v)] that returned normally does
    nothing: same state, no version bump, no notification. *)
Theorem set_again_changes_nothing self v w this w1 :
  nodes w !! self = Some this ->
  equal this v v = true ->
  WritableSignalImpl.set self v w = (w1, Returned tt) ->
  WritableSignalImpl.set self v w1 = (w1, Returned tt).
Proof.
  intros Hnode Hrefl Hset.
  assert (Hw1 : producerUpdatesAllowed w1 = true /\
                exists this1, nodes w1 !! self = Some this1 /\
                              equal this1 (value this1) v = true).
  { revert Hset. run_ops_sig.
    destruct (producerUpdatesAllowed w) eqn:Hallowed; simpl; [|discriminate].
    rewrite Hnode.
    destruct (equal this (value this) v) eqn:Heq; simpl.
    - intros [= <-]. split; [exact Hallowed|]. exists this. auto.
    - rewrite !lookup_alter_eq, Hnode. simpl.
      destruct (postSignalSetFn w) as [hook|]; simpl.
      + destruct (hook (outside w)) as [e r]. intros [= <- _].
        split; [exact Hallowed|]. simpl.
        rewrite !lookup_alter_eq, Hnode. simpl. eexists. split; [reflexivity|].
        exact Hrefl.
      + intros [= <-]. split; [exact Hallowed|]. simpl.
        rewrite !lookup_alter_eq, Hnode. simpl. eexists. split; [reflexivity|].
        exact Hrefl. }
  destruct Hw1 as (Hallowed1 & this1 & Hnode1 & Heq1).
  run_ops_sig. rewrite Hallowed1. simpl. rewrite Hnode1, Heq1. reflexivity.
Qed.

(** X11: [setPostSignalSetFn] hands back the hook that was installed, and
    the hook it installs is the one the next write runs: after a [set]
    that stores a new value, the call completes the way the hook did and
    the outside state is the one the hook left; after a [set] of an equal
    value the hook has not run. *)
Theorem installed_hook_runs_after_write self v w this (hook : Callback E unit) :
  nodes w !! self = Some this ->
  producerUpdatesAllowed w = true ->
  let r := (setPostSignalSetFn (Some hook) ;; WritableSignalImpl.set self v) w in
  snd (setPostSignalSetFn (Some hook) w) = Returned (postSignalSetFn w) /\
  (equal this (value this) v = false ->
   snd r = snd (hook (outside w)) /\ outside (fst r) = fst (hook (outside w))) /\
  (equal this (value this) v = true ->
   snd r = Returned tt /\ outside (fst r) = outside w /\ trace (fst r) = trace w).
Proof.
  intros Hnode Hallowed. cbv zeta.
  split; [reflexivity|].
  split; intros Heq; run_ops_sig; simpl; unfold producerUpdatesAllowed in *; simpl;
    rewrite Hallowed; simpl; rewrite Hnode, Heq; simpl.
  - rewrite !lookup_alter_eq, Hnode. simpl.
    destruct (hook (outside w)) as [e r]. split; reflexivity.
  - repeat split.
Qed.
End SignalExtras.

(** ** Frames: what the operations leave alone *)

Section SignalFrameFacts.
Import Signals SignalFrames.
Context {T : Type} {E : Type}.
Implicit Types (w : World T E) (self : nat) (this : SignalNode T) (v : T).

Lemma field_update_with_value v : field_update (with_value v).
Proof. intros n. simpl. split; [reflexivity | lia]. Qed.

Lemma field_update_bump : field_update (bump_valueVersion (T:=T)).
Proof. intros n. simpl. split; [reflexivity | lia]. Qed.

Lemma field_update_add_consumer c : field_update (add_consumer (T:=T) c).
Proof. intros n. simpl. split; [reflexivity | lia]. Qed.

Lemma field_update_with_readonlySignal f :
  field_update (with_readonlySignal (T:=T) f).
Proof. intros n. simpl. split; [reflexivity | lia]. Qed.

Section Respects.
Variable R : World T E -> World T E -> Prop.
Variable self : nat.
Hypothesis R_same_nodes : forall w w', nodes w' = nodes w -> R w w'.
Hypothesis R_trans : forall w1 w2 w3, R w1 w2 -> R w2 w3 -> R w1 w3.
Hypothesis R_field :
  forall f w, field_update f -> R w (with_nodes (alter f self) w).

Lemma respects_ret {A} (a : A) : respects R (ret a).
Proof. intros w. apply R_same_nodes. reflexivity. Qed.

Lemma respects_throw {A} (x : Thrown) : respects R (A:=A) (throw x).
Proof. intros w. apply R_same_nodes. reflexivity. Qed.

Lemma respects_gets {A} (f : World T E -> A) : respects R (gets f).
Proof. intros w. apply R_same_nodes. reflexivity. Qed.

Lemma respects_bind {A B} (c : Sig T E A) (k : A -> Sig T E B) :
  respects R c -> (forall a, respects R (k a)) -> respects R (bind c k).
Proof.
  intros Hc Hk w. unfold bind. specialize (Hc w).
  destruct (c w) as [w1 [a|x]]; simpl in *.
  - eapply R_trans; [exact Hc | apply Hk].
  - exact Hc.
Qed.

Lemma respects_modify (f : World T E -> World T E) :
  (forall w, nodes (f w) = nodes w) -> respects R (modify f).
Proof. intros Hf w. apply R_same_nodes, Hf. Qed.

Lemma respects_this_node : respects R (this_node self).
Proof.
  intros w. unfold this_node.
  destruct (nodes w !! self); apply R_same_nodes; reflexivity.
Qed.

Lemma respects_update_node (f : SignalNode T -> SignalNode T) :
  field_update f -> respects R (update_node self f).
Proof. intros Hf w. apply R_field, Hf. Qed.

Lemma respects_run_callback {A} (c : Callback E A) : respects R (run_callback c).
Proof.
  intros w. unfold run_callback. destruct (c (outside w)) as [e r].
  apply R_same_nodes. reflexivity.
Qed.

Ltac respects_step :=
  first
    [ apply respects_bind; [|intros ?]
    | apply respects_ret
    | apply respects_throw
    | apply respects_gets
    | apply respects_this_node
    | apply respects_run_callback
    | apply respects_update_node;
      first [ apply field_update_with_value | apply field_update_bump
            | apply field_update_add_consumer
            | apply field_update_with_readonlySignal ]
    | apply respects_modify; intros ?; reflexivity
    | match goal with
      | |- respects _ (if ?b then _ else _) => destruct b
      | |- respects _ (match ?o with Some _ => _ | None => _ end) => destruct o
      end ].

Lemma respects_call_mutator (mutator : Mutator T E) v :
  respects R (call_mutator self mutator v).
Proof.
  unfold call_mutator. respects_step; [respects_step|].
  intros w. destruct (mutator v (outside w)) as [[v' e] r].
  eapply R_trans; [apply (R_field (with_value v') w), field_update_with_value|].
  apply R_same_nodes. reflexivity.
Qed.

Lemma respects_set v : respects R (WritableSignalImpl.set self v).
Proof.
  unfold WritableSignalImpl.set, throwInvalidWriteToSignalError,
    producerMayHaveChanged, call_postSignalSetFn.
  repeat respects_step.
Qed.

Lemma respects_update (updater : T -> Callback E T) :
  respects R (WritableSignalImpl.update self updater).
Proof.
  unfold WritableSignalImpl.update, throwInvalidWriteToSignalError, call_updater.
  repeat first [ apply respects_set | respects_step ].
Qed.

Lemma respects_mutate (mutator : Mutator T E) :
  respects R (WritableSignalImpl.mutate self mutator).
Proof.
  unfold WritableSignalImpl.mutate, throwInvalidWriteToSignalError,
    producerMayHaveChanged, call_postSignalSetFn.
  repeat first [ apply respects_call_mutator | respects_step ].
Qed.

Lemma respects_signal : respects R (WritableSignalImpl.signal self).
Proof.
  unfold WritableSignalImpl.signal, producerAccessed. repeat respects_step.
Qed.

Lemma respects_asReadonly : respects R (WritableSignalImpl.asReadonly self).
Proof.
  unfold WritableSignalImpl.asReadonly, createSignalFromFunction.
  repeat respects_step.
Qed.
End Respects.

Lemma grows_same_nodes w w' : nodes w' = nodes w -> grows w w'.
Proof.
  intros Hnodes s n Hs. exists n. rewrite Hnodes.
  split; [exact Hs|]. split; [reflexivity | lia].
Qed.

Lemma grows_trans w1 w2 w3 : grows w1 w2 -> grows w2 w3 -> grows w1 w3.
Proof.
  intros H12 H23 s n Hs.
  destruct (H12 s n Hs) as (n2 & Hs2 & Heq2 & Hle2).
  destruct (H23 s n2 Hs2) as (n3 & Hs3 & Heq3 & Hle3).
  exists n3. split; [exact Hs3|]. split; [congruence | lia].
Qed.

Lemma grows_field self (f : SignalNode T -> SignalNode T) w :
  field_update f -> grows w (with_nodes (alter f self) w).
Proof.
  intros Hf s n Hs. simpl.
  destruct (decide (self = s)) as [->|Hne].
  - exists (f n). rewrite lookup_alter_eq, Hs. simpl.
    split; [reflexivity|]. apply Hf.
  - exists n. rewrite lookup_alter_ne by exact Hne.
    split; [exact Hs|]. split; [reflexivity | lia].
Qed.

Section WithFactory.
Context `{EqDecision T}.

Lemma step_grows w (o : Op T E) : grows w (step w o).
Proof.
  destruct o as [initialValue equalOption | s v | s updater | s mutator
                | s | f | fn | c]; unfold step.
  - intros s n Hs. exists n. simpl.
    rewrite lookup_insert_ne.
    + split; [exact Hs|]. split; [reflexivity | lia].
    + intros Heq. apply (is_fresh (dom (nodes w))).
      rewrite Heq. eapply elem_of_dom_2, Hs.
  - apply (respects_set _ s grows_same_nodes grows_trans (grows_field s)).
  - apply (respects_update _ s grows_same_nodes grows_trans (grows_field s)).
  - apply (respects_mutate _ s grows_same_nodes grows_trans (grows_field s)).
  - apply (respects_asReadonly _ s grows_same_nodes grows_trans (grows_field s)).
  - unfold call_signalFn, bind, gets. simpl.
    destruct (fns w !! f) as [fn|].
    + apply (respects_signal _ (fnNode fn) grows_same_nodes grows_trans
               (grows_field (fnNode fn))).
    + apply grows_same_nodes. reflexivity.
  - apply grows_same_nodes. reflexivity.
  - apply grows_same_nodes. reflexivity.
Qed.

(** X8: versions only go up.  Whatever a program does to the graph
    (creating signals, writes, reads, readonly views, hooks, consumers
    coming and going), a signal that exists stays; it keeps the equality
    function it was created with, and its version never decreases. *)
Theorem versions_never_decrease (ops : list (Op T E)) w self this :
  nodes w !! self = Some this ->
  exists this',
    nodes (run_ops ops w) !! self = Some this' /\
    equal this' = equal this /\
    valueVersion this <= valueVersion this'.
Proof.
  revert w this. induction ops as [|o ops IH]; intros w this Hnode; simpl.
  - exists this. split; [exact Hnode|]. split; [reflexivity | lia].
  - destruct (step_grows w o self this Hnode) as (n1 & Hn1 & Heq1 & Hle1).
    destruct (IH (step w o) n1 Hn1) as (n2 & Hn2 & Heq2 & Hle2).
    exists n2. split; [exact Hn2|]. split; [congruence | lia].
Qed.

(** X4: [signal(initialValue, options)] makes a new node and hands back a
    function object for it that carries the writable API.  The node did
    not exist before, the nodes and function objects that did are
    untouched, the new node starts at version 0 without a readonly view,
    its equality function is the one given (the default one when none
    is), and calling the function object returns the initial value. *)
Theorem signal_makes_a_fresh_signal (initialValue : T)
  (equalOption : option (T -> T -> bool)) w :
  exists f self,
    snd (signal initialValue equalOption w) = Returned f /\
    fns (fst (signal initialValue equalOption w)) !! f = Some (mkSignalFn self true) /\
    nodes w !! self = None /\
    nodes (fst (signal initialValue equalOption w)) !! self
    = Some (mkSignalNode initialValue (default defaultEquals equalOption) 0 None ∅) /\
    (forall s, s <> self ->
       nodes (fst (signal initialValue equalOption w)) !! s = nodes w !! s) /\
    (forall g fn, fns w !! g = Some fn ->
       fns (fst (signal initialValue equalOption w)) !! g = Some fn) /\
    snd (call_signalFn f (fst (signal initialValue equalOption w)))
    = Returned initialValue.
Proof.
  exists (length (fns w)), (fresh (dom (nodes w))).
  split; [reflexivity|].
  split; [simpl; apply list_lookup_middle; reflexivity|].
  split; [apply not_elem_of_dom, is_fresh|].
  split; [simpl; apply lookup_insert_eq|].
  split; [intros s Hs; simpl; apply lookup_insert_ne; congruence|].
  split; [intros g fn Hg; simpl; apply lookup_app_l_Some, Hg|].
  unfold call_signalFn, bind at 1, gets at 1. simpl.
  rewrite list_lookup_middle by reflexivity. simpl.
  unfold WritableSignalImpl.signal, producerAccessed, update_node, this_node,
    bind, gets, modify, ret. simpl.
  destruct (activeConsumer w) as [c|]; simpl; rewrite lookup_insert_eq; simpl.
  - rewrite lookup_alter_eq, lookup_insert_eq. reflexivity.
  - reflexivity.
Qed.

(** X12: a graph built from nothing never holds two readonly views of one
    signal, and every [readonlySignal] field holds a function object that
    was made for that signal without the writable API. *)
Theorem graph_has_one_view_per_signal (ops : list (Op T E)) (e : E) :
  let w := run_ops ops (empty_world e) in
  (forall self, (readonly_views self (fns w) <= 1)%nat) /\
  (forall self this h,
     nodes w !! self = Some this ->
     readonlySignal this = Some h ->
     fns w !! h = Some (mkSignalFn self false)).
Proof.
  cbv zeta.
  destruct (reachable_views ops e) as (Hwf & _ & Hone).
  split; [exact Hone | exact Hwf].
Qed.
End WithFactory.
End SignalFrameFacts.

(** ** Properties of the dehydrated views of a container *)

Section HydrationFacts.
Import Hydration.
Context {RNode : Type} {C : Type}.
Variable siblingAfter : Z -> RNode -> RNode.
Variable removeDehydratedViews : LContainer RNode C -> LContainer RNode C.

Lemma locate_repeated_flat (n : nat) (sv : SerializedContainerView)
  (state : RNode * list (DehydratedContainerView RNode)) :
  locate_repeated siblingAfter n sv state
  = fold_left (fun st sv' => locate_one siblingAfter sv' st) (replicate n sv) state.
Proof.
  revert state. induction n as [|n IH]; intros state; simpl; [reflexivity|].
  apply IH.
Qed.

(** The two nested loops are one loop over the expanded list. *)
Lemma locate_fold_expanded (svs : list SerializedContainerView)
  (state : RNode * list (DehydratedContainerView RNode)) :
  fold_left (fun st sv => locate_repeated siblingAfter (repetitions sv) sv st) svs state
  = fold_left (fun st sv => locate_one siblingAfter sv st) (expanded svs) state.
Proof.
  revert state. induction svs as [|sv svs IH]; intros state; simpl; [reflexivity|].
  unfold expanded in *. simpl. rewrite fold_left_app, IH, locate_repeated_flat.
  reflexivity.
Qed.

Lemma locate_one_run (sv : SerializedContainerView) (cur : RNode)
  (acc : list (DehydratedContainerView RNode)) :
  locate_one siblingAfter sv (cur, acc)
  = ((if 0 <? NUM_ROOT_NODES sv then siblingAfter (NUM_ROOT_NODES sv) cur else cur),
     acc ++ [mkDehydratedContainerView sv
               (if 0 <? NUM_ROOT_NODES sv then Some cur else None)]).
Proof. unfold locate_one. destruct (0 <? NUM_ROOT_NODES sv); reflexivity. Qed.

(** The views collected so far are only ever appended to, and the node
    reached does not depend on them. *)
Lemma locate_flat_acc (l : list SerializedContainerView) (cur : RNode)
  (acc : list (DehydratedContainerView RNode)) :
  fold_left (fun st sv => locate_one siblingAfter sv st) l (cur, acc)
  = (fst (fold_left (fun st sv => locate_one siblingAfter sv st) l (cur, [])),
     acc ++ snd (fold_left (fun st sv => locate_one siblingAfter sv st) l (cur, []))).
Proof.
  revert cur acc. induction l as [|sv l IH]; intros cur acc; cbn [fold_left].
  - simpl. rewrite app_nil_r. reflexivity.
  - rewrite !locate_one_run. simpl.
    rewrite (IH _ (acc ++ _)), (IH _ [_]). simpl. rewrite <- app_assoc. reflexivity.
Qed.

Lemma located_data (currentRNode : RNode)
  (serializedViews : list SerializedContainerView) :
  map data (snd (locateDehydratedViewsInContainer siblingAfter currentRNode
                   serializedViews))
  = expanded serializedViews.
Proof.
  unfold locateDehydratedViewsInContainer. rewrite locate_fold_expanded.
  generalize (expanded serializedViews) as l. intros l.
  revert currentRNode. induction l as [|sv l IH]; intros cur; cbn [fold_left];
    [reflexivity|].
  rewrite locate_one_run, locate_flat_acc. simpl. rewrite IH. reflexivity.
Qed.

(** X13: the views come out in the order of the serialized views, each
    serialized view giving as many consecutive views as its multiplier
    says (one when it has none, none when the multiplier is zero or
    negative), and each view points back at its serialized view. *)
Theorem located_views_follow_serialized_views (currentRNode : RNode)
  (serializedViews : list SerializedContainerView) :
  map data (snd (locateDehydratedViewsInContainer siblingAfter currentRNode
                   serializedViews))
  = flat_map (fun sv => replicate (Z.to_nat (default 1 (MULTIPLIER sv))) sv)
      serializedViews.
Proof. apply located_data. Qed.

(** X14: a view has a first child exactly when its serialized view has
    at least one root node; views of templates without root nodes keep
    [firstChild] at [null]. *)
Theorem first_child_only_with_root_nodes (currentRNode : RNode)
  (serializedViews : list SerializedContainerView) :
  Forall (fun view => firstChild view = None <-> NUM_ROOT_NODES (data view) <= 0)
    (snd (locateDehydratedViewsInContainer siblingAfter currentRNode serializedViews)).
Proof.
  unfold locateDehydratedViewsInContainer. rewrite locate_fold_expanded.
  generalize (expanded serializedViews) as l. intros l.
  revert currentRNode. induction l as [|sv l IH]; intros cur; cbn [fold_left].
  - constructor.
  - rewrite locate_one_run, locate_flat_acc. simpl. constructor; [|apply IH].
    simpl. destruct (0 <? NUM_ROOT_NODES sv) eqn:Hpos.
    + apply Z.ltb_lt in Hpos. split; [discriminate | lia].
    + apply Z.ltb_ge in Hpos. split; [intros _; exact Hpos | reflexivity].
Qed.

(** X15: locating the views of two runs of serialized views one after the
    other, the second from the node the first one reached, is locating
    the views of the concatenation. *)
Theorem locating_views_composes (currentRNode : RNode)
  (first second : list SerializedContainerView) :
  locateDehydratedViewsInContainer siblingAfter currentRNode (first ++ second)
  = (fst (locateDehydratedViewsInContainer siblingAfter
            (fst (locateDehydratedViewsInContainer siblingAfter currentRNode first))
            second),
     snd (locateDehydratedViewsInContainer siblingAfter currentRNode first)
     ++ snd (locateDehydratedViewsInContainer siblingAfter
               (fst (locateDehydratedViewsInContainer siblingAfter currentRNode first))
               second)).
Proof.
  unfold locateDehydratedViewsInContainer.
  rewrite fold_left_app, !locate_fold_expanded.
  destruct (fold_left (fun st sv => locate_one siblingAfter sv st) (expanded first)
              (currentRNode, [])) as [cur1 acc1].
  simpl. apply locate_flat_acc.
Qed.

(** X16: if skipping siblings adds up (skipping [a] and then [b] siblings
    is skipping [a + b], and skipping none stays put), the node returned
    is the one [covered_nodes] siblings after the start: the located
    views cover the DOM nodes of the container without gap or overlap. *)
Theorem located_views_cover_the_siblings (currentRNode : RNode)
  (serializedViews : list SerializedContainerView) :
  (forall n, siblingAfter 0 n = n) ->
  (forall a b n, 0 <= a -> 0 <= b ->
     siblingAfter b (siblingAfter a n) = siblingAfter (a + b) n) ->
  fst (locateDehydratedViewsInContainer siblingAfter currentRNode serializedViews)
  = siblingAfter (covered_nodes serializedViews) currentRNode.
Proof.
  intros Hzero Hadd.
  unfold locateDehydratedViewsInContainer, covered_nodes.
  rewrite locate_fold_expanded.
  generalize (expanded serializedViews) as l. intros l.
  assert (Hnonneg : forall l' : list SerializedContainerView,
            0 <= fold_right (fun sv total => Z.max 0 (NUM_ROOT_NODES sv) + total) 0 l').
  { induction l' as [|sv l' IH]; simpl; lia. }
  revert currentRNode. induction l as [|sv l IH]; intros cur;
    cbn [fold_left fold_right].
  - symmetry. apply Hzero.
  - rewrite locate_one_run, locate_flat_acc. simpl. rewrite IH.
    destruct (0 <? NUM_ROOT_NODES sv) eqn:Hpos.
    + apply Z.ltb_lt in Hpos. rewrite Hadd by (try lia; apply Hnonneg).
      f_equal. lia.
    + apply Z.ltb_ge in Hpos. f_equal. lia.
Qed.

Lemma find_head (view : DehydratedContainerView RNode)
  (views : list (DehydratedContainerView RNode)) (c : C) :
  TEMPLATE_ID (data view) <> "" ->
  findMatchingDehydratedView removeDehydratedViews FindMatchingDehydratedViewImpl
    (mkLContainer (Some (view :: views)) c) (Some (TEMPLATE_ID (data view)))
  = (mkLContainer (Some views) c, Some view).
Proof.
  intros Hid. unfold findMatchingDehydratedView, findMatchingDehydratedViewImpl.
  simpl. destruct (String.eqb_spec (TEMPLATE_ID (data view)) "") as [Heq|_];
    [contradiction|]. simpl.
  rewrite bool_decide_eq_true_2 by reflexivity. reflexivity.
Qed.

Lemma find_each_in_order (views rest : list (DehydratedContainerView RNode)) (c : C) :
  Forall (fun view => TEMPLATE_ID (data view) <> "") views ->
  find_each removeDehydratedViews FindMatchingDehydratedViewImpl
    (map (fun view => TEMPLATE_ID (data view)) views)
    (mkLContainer (Some (views ++ rest)) c)
  = (mkLContainer (Some rest) c, map Some views).
Proof.
  intros Hids. induction Hids as [|view views Hid Hids IH]; cbn [find_each map app].
  - reflexivity.
  - rewrite (find_head view (views ++ rest) c Hid), IH. reflexivity.
Qed.

(** X17: the dehydrated views of a container are handed out first in,
    first out.  Once the lookup is enabled, when the templates ask with
    the ids of the first views in the container's order (ids that are not
    empty), every request gets the next view, and the container is left
    with the views that were not asked for. *)
Theorem views_are_handed_out_in_order
  (views rest : list (DehydratedContainerView RNode)) (c : C) :
  Forall (fun view => TEMPLATE_ID (data view) <> "") views ->
  find_each removeDehydratedViews
    (enableFindMatchingDehydratedViewImpl AnswerNull)
    (map (fun view => TEMPLATE_ID (data view)) views)
    (mkLContainer (Some (views ++ rest)) c)
  = (mkLContainer (Some rest) c, map Some views).
Proof. apply find_each_in_order. Qed.

(** X18: what was located for a container is what its templates get
    back.  The views located from the serialized views (with template ids
    that are not empty), stored in the container and asked for in the
    order of the expanded serialized views, come back one per request, in
    the same order, and the container ends up with none left. *)
Theorem located_views_are_found_again (currentRNode : RNode)
  (serializedViews : list SerializedContainerView) (c : C) :
  Forall (fun sv => TEMPLATE_ID sv <> "") serializedViews ->
  find_each removeDehydratedViews
    (enableFindMatchingDehydratedViewImpl AnswerNull)
    (map TEMPLATE_ID (expanded serializedViews))
    (mkLContainer
       (Some (snd (locateDehydratedViewsInContainer siblingAfter currentRNode
                     serializedViews))) c)
  = (mkLContainer (Some []) c,
     map Some (snd (locateDehydratedViewsInContainer siblingAfter currentRNode
                      serializedViews))).
Proof.
  intros Hids.
  pose proof (located_data currentRNode serializedViews) as Hdata.
  set (views := snd (locateDehydratedViewsInContainer siblingAfter currentRNode
                       serializedViews)) in *.
  rewrite <- Hdata, map_map.
  rewrite <- (app_nil_r views) at 2.
  apply find_each_in_order.
  assert (Hexp : Forall (fun sv => TEMPLATE_ID sv <> "") (expanded serializedViews)).
  { unfold expanded. apply Forall_forall. intros sv Hin.
    apply list_elem_of_In, in_flat_map in Hin. destruct Hin as (sv' & Hin' & Hrep).
    apply list_elem_of_In, elem_of_replicate in Hrep. destruct Hrep as [-> _].
    rewrite Forall_forall in Hids. apply Hids, list_elem_of_In, Hin'. }
  rewrite <- Hdata in Hexp. rewrite Forall_forall in Hexp.
  apply Forall_forall. intros view Hin.
  apply Hexp, list_elem_of_In, in_map, list_elem_of_In, Hin.
Qed.

(** X19: a view is only ever handed out for its own template.  Whenever
    [findMatchingDehydratedView] returns a view, the lookup had been
    enabled, the view was the first one of the container, its template id
    is the one asked for (and is not empty), and the container has lost
    exactly that view.  Whenever it returns [null], the container is
    either untouched or has been through [removeDehydratedViews]: the
    list is never consumed in part on a mismatch. *)
Theorem found_view_matches_the_template (impl : FindImpl)
  (lContainer lContainer' : LContainer RNode C) (template : option string)
  (found : option (DehydratedContainerView RNode)) :
  findMatchingDehydratedView removeDehydratedViews impl lContainer template
  = (lContainer', found) ->
  match found with
  | Some view =>
      impl = FindMatchingDehydratedViewImpl /\
      template = Some (TEMPLATE_ID (data view)) /\
      TEMPLATE_ID (data view) <> "" /\
      exists views,
        DEHYDRATED_VIEWS lContainer = Some (view :: views) /\
        lContainer' = mkLContainer (Some views) (container_rest lContainer)
  | None =>
      lContainer' = lContainer \/ lContainer' = removeDehydratedViews lContainer
  end.
Proof.
  unfold findMatchingDehydratedView, findMatchingDehydratedViewImpl.
  destruct impl; [intros [= <- <-]; left; reflexivity|].
  destruct template as [t|]; simpl; [|intros [= <- <-]; left; reflexivity].
  destruct (String.eqb_spec t "") as [->|Ht]; simpl;
    [intros [= <- <-]; left; reflexivity|].
  destruct (DEHYDRATED_VIEWS lContainer) as [[|view views]|] eqn:Hviews; simpl;
    try (intros [= <- <-]; left; reflexivity).
  destruct (bool_decide_reflect (Some (TEMPLATE_ID (data view)) = Some t)) as [Heq|Hne].
  - intros [= <- <-]. injection Heq as <-.
    split; [reflexivity|]. split; [reflexivity|]. split; [exact Ht|].
    exists views. split; reflexivity.
  - intros [= <- <-]. right. reflexivity.
Qed.
End HydrationFacts.

(** ** Properties of the [NgClass] directive *)

Section NgClassStrings.
Import NgClassDirective.

Lemma drop_whitespace_head (s : list N) :
  drop_whitespace s = [] \/
  exists c t, drop_whitespace s = c :: t /\ is_whitespace c = false.
Proof.
  induction s as [|c s IH]; simpl; [left; reflexivity|].
  destruct (is_whitespace c) eqn:Hc; [exact IH|].
  right. exists c, s. split; [reflexivity | exact Hc].
Qed.

Lemma drop_whitespace_snoc (l : list N) (c : N) :
  is_whitespace c = false ->
  drop_whitespace (l ++ [c]) = drop_whitespace l ++ [c].
Proof.
  intros Hc. induction l as [|d l IH]; simpl.
  - rewrite Hc. reflexivity.
  - destruct (is_whitespace d); [exact IH | reflexivity].
Qed.

(** A trimmed string is empty, or starts and ends with a code unit that
    is not white space. *)
Lemma trim_shape (s : list N) :
  trim s = [] \/
  (exists c t, trim s = c :: t /\ is_whitespace c = false) /\
  (exists t c, trim s = t ++ [c] /\ is_whitespace c = false).
Proof.
  unfold trim.
  destruct (drop_whitespace_head s) as [Hnil|(c & t & Ht & Hc)].
  - left. rewrite Hnil. reflexivity.
  - right. rewrite Ht. simpl. rewrite (drop_whitespace_snoc (rev t) c Hc).
    split.
    + exists c, (rev (drop_whitespace (rev t))).
      rewrite rev_app_distr. split; [reflexivity | exact Hc].
    + destruct (drop_whitespace_head (rev t ++ [c])) as [Hnil|(d & u & Hu & Hd)].
      * rewrite (drop_whitespace_snoc (rev t) c Hc) in Hnil.
        destruct (drop_whitespace (rev t)); discriminate.
      * rewrite <- (drop_whitespace_snoc (rev t) c Hc), Hu. simpl.
        exists (rev u), d. split; [reflexivity | exact Hd].
Qed.

Lemma split_from_no_whitespace (s : list N) (b : bool) (current : list N) :
  Forall (fun c => is_whitespace c = false) current ->
  Forall (Forall (fun c => is_whitespace c = false)) (split_from b current s).
Proof.
  revert b current. induction s as [|c s IH]; intros b current Hcur; simpl.
  - constructor; [|constructor]. apply Forall_rev, Hcur.
  - destruct (is_whitespace c) eqn:Hc.
    + destruct b.
      * apply IH, Hcur.
      * constructor; [apply Forall_rev, Hcur|]. apply IH. constructor.
    + apply IH. constructor; [exact Hc | exact Hcur].
Qed.

Lemma split_from_nonempty (s : list N) (b : bool) (current : list N) :
  (forall t c, s = t ++ [c] -> is_whitespace c = false) ->
  (b = true -> s <> []) ->
  (b = false ->
   current <> [] \/ exists c s', s = c :: s' /\ is_whitespace c = false) ->
  Forall (fun piece => piece <> []) (split_from b current s).
Proof.
  revert b current. induction s as [|c s IH]; intros b current Hend Hsep Hcur; simpl.
  - constructor; [|constructor].
    destruct b; [exfalso; apply Hsep; reflexivity|].
    destruct (Hcur eq_refl) as [Hne|(c & s' & Hs & _)]; [|discriminate].
    intros Hrev. apply Hne. apply (f_equal (@rev N)) in Hrev.
    rewrite rev_involutive in Hrev. exact Hrev.
  - assert (Hend' : forall t d, s = t ++ [d] -> is_whitespace d = false).
    { intros t d Hs. apply (Hend (c :: t) d). rewrite Hs. reflexivity. }
    destruct (is_whitespace c) eqn:Hc.
    + assert (Hs : s <> []).
      { intros ->. specialize (Hend [] c eq_refl). congruence. }
      destruct b.
      * apply IH; [exact Hend' | intros _; exact Hs | discriminate].
      * constructor.
        -- destruct (Hcur eq_refl) as [Hne|(c' & s' & Heq & Hc')].
           ++ intros Hrev. apply Hne. apply (f_equal (@rev N)) in Hrev.
              rewrite rev_involutive in Hrev. exact Hrev.
           ++ injection Heq as <- <-. congruence.
        -- apply IH; [exact Hend' | intros _; exact Hs | discriminate].
    + apply IH; [exact Hend' | discriminate |].
      intros _. left. discriminate.
Qed.

(** The pieces of a trimmed, non-empty string are class names the DOM
    accepts. *)
Lemma split_trimmed_tokens (s : list N) :
  trim s <> [] -> Forall token_ok (split_whitespace (trim s)).
Proof.
  intros Hne. unfold split_whitespace.
  destruct (trim_shape s) as [Hnil|[(c & t & Hhead & Hc) (u & d & Hlast & Hd)]];
    [contradiction|].
  apply Forall_and. split.
  - apply split_from_nonempty.
    + intros t' c' Heq. rewrite Hlast in Heq.
      apply app_inj_tail in Heq. destruct Heq as [_ <-]. exact Hd.
    + discriminate.
    + intros _. right. exists c, t. split; [exact Hhead | exact Hc].
  - apply split_from_no_whitespace. constructor.
Qed.

Lemma _toggleClass_tokens (klass : list N) (b : bool) :
  Forall (fun call => token_ok (call_class call)) (_toggleClass klass b).
Proof.
  unfold _toggleClass.
  destruct (trim klass) as [|c t] eqn:Htrim; simpl; [constructor|].
  assert (Htokens : Forall token_ok (split_whitespace (trim klass))).
  { apply split_trimmed_tokens. rewrite Htrim. discriminate. }
  rewrite Htrim in Htokens.
  apply Forall_map. eapply Forall_impl; [exact Htokens|].
  intros token Hok. destruct b; exact Hok.
Qed.

Lemma _applyStateDiff_tokens (entries : list (list N * CssClassState)) :
  Forall (fun call => token_ok (call_class call)) (snd (_applyStateDiff entries)).
Proof.
  induction entries as [|[klass state] rest IH]; simpl; [constructor|].
  destruct (_applyStateDiff rest) as [kept calls]. simpl in IH.
  destruct (changed state); simpl.
  - apply Forall_app. split; [apply _toggleClass_tokens | exact IH].
  - destruct (touched state); simpl; [exact IH|].
    apply Forall_app. split; [|exact IH].
    destruct (enabled state); [apply _toggleClass_tokens | constructor].
Qed.

(** X20: the renderer only ever sees well-formed class names.  Whatever
    the bindings hold (empty strings, names with white space at either
    end, several names in one key), every [addClass] and [removeClass]
    call that [ngDoCheck] makes names a class that is not empty and
    contains no white space; the calls made before are kept. *)
Theorem renderer_gets_well_formed_classes (d : NgClass) :
  exists calls,
    renderer_calls (ngDoCheck d) = renderer_calls d ++ calls /\
    Forall (fun call => call_class call <> [] /\
                        Forall (fun c => is_whitespace c = false) (call_class call))
      calls.
Proof.
  unfold ngDoCheck.
  match goal with
  | |- context [_applyStateDiff ?st] =>
      pose proof (_applyStateDiff_tokens st) as Htokens;
      destruct (_applyStateDiff st) as [kept calls]
  end.
  exists calls. split; [reflexivity | exact Htokens].
Qed.
End NgClassStrings.

Section NgClassStates.
Import NgClassDirective NgClassRuns.
Implicit Types (entries st : list (list N * CssClassState)).
Implicit Types (updates : list (list N * bool)) (k klass : list N).

Lemma fold_left_map {A B S} (f : S -> B -> S) (g : A -> B) (l : list A) (st : S) :
  fold_left f (map g l) st = fold_left (fun acc a => f acc (g a)) l st.
Proof. revert st. induction l as [|a l IH]; intros st; simpl; [reflexivity|]. apply IH. Qed.

(** [ngDoCheck] runs the [_updateState] calls of the bindings and then
    [_applyStateDiff]. *)
Lemma ngDoCheck_unfold (d : NgClass) :
  ngDoCheck d
  = mkNgClass (initialClasses d) (rawClass d)
      (fst (_applyStateDiff (update_all (bindings d) (stateMap d))))
      (renderer_calls d
       ++ snd (_applyStateDiff (update_all (bindings d) (stateMap d)))).
Proof.
  unfold ngDoCheck, update_all, bindings.
  rewrite fold_left_app, fold_left_map. cbn [fst snd].
  destruct (rawClass d) as [classes|classes|entries|];
    rewrite ?fold_left_map; cbn [fst snd fold_left];
    match goal with
    | |- context [_applyStateDiff ?st] => destruct (_applyStateDiff st)
    end; reflexivity.
Qed.

Lemma find_state_update k' k (b : bool) st :
  find_state k' (_updateState k b st)
  = if decide (k' = k)
    then Some (match find_state k st with
               | Some state => touch_state b state
               | None => mkCssClassState b true true
               end)
    else find_state k' st.
Proof.
  induction st as [|[k0 s0] rest IH]; simpl.
  - destruct (decide (k = k')), (decide (k' = k)); congruence.
  - destruct (decide (k0 = k)) as [->|Hne]; simpl.
    + destruct (decide (k = k')), (decide (k' = k)); congruence.
    + destruct (decide (k0 = k')) as [->|Hne'].
      * destruct (decide (k' = k)); congruence.
      * exact IH.
Qed.

Lemma find_state_None k st : find_state k st = None <-> ~ In k (map fst st).
Proof.
  induction st as [|[k0 s0] rest IH]; simpl.
  - tauto.
  - destruct (decide (k0 = k)) as [->|Hne].
    + split; [discriminate | intros H; exfalso; apply H; left; reflexivity].
    + rewrite IH. tauto.
Qed.

Lemma find_state_In k st state : find_state k st = Some state -> In (k, state) st.
Proof.
  induction st as [|[k0 s0] rest IH]; simpl; [discriminate|].
  destruct (decide (k0 = k)) as [->|Hne].
  - intros [= ->]. left. reflexivity.
  - intros H. right. apply IH, H.
Qed.

Lemma keys_update k (b : bool) st :
  map fst (_updateState k b st)
  = map fst st ++ (match find_state k st with Some _ => [] | None => [k] end).
Proof.
  induction st as [|[k0 s0] rest IH]; simpl; [reflexivity|].
  destruct (decide (k0 = k)) as [->|Hne]; simpl.
  - rewrite app_nil_r. reflexivity.
  - rewrite IH. reflexivity.
Qed.

Lemma is_map_update k (b : bool) st : is_map st -> is_map (_updateState k b st).
Proof.
  unfold is_map. intros Hmap. rewrite keys_update.
  destruct (find_state k st) eqn:Hfind.
  - rewrite app_nil_r. exact Hmap.
  - apply find_state_None in Hfind.
    apply NoDup_app. split; [exact Hmap|]. split.
    + intros x Hx Hx'. apply list_elem_of_In in Hx, Hx'.
      destruct Hx' as [<-|[]]. contradiction.
    + apply NoDup_singleton.
Qed.

Lemma is_map_update_all updates st : is_map st -> is_map (update_all updates st).
Proof.
  revert st. induction updates as [|[k b] updates IH]; intros st Hmap; simpl.
  - exact Hmap.
  - apply IH, is_map_update, Hmap.
Qed.

Lemma Forall_update (P : list N * CssClassState -> Prop) k (b : bool) st :
  Forall P st -> (forall state, P (k, state)) -> Forall P (_updateState k b st).
Proof.
  intros Hst Hk. induction Hst as [|[k0 s0] rest Hhead Hrest IH]; simpl.
  - constructor; [apply Hk | constructor].
  - destruct (decide (k0 = k)) as [->|Hne].
    + constructor; [apply Hk | exact Hrest].
    + constructor; [exact Hhead | exact IH].
Qed.

(** *** What [_applyStateDiff] keeps *)

Lemma applied_quiescent st : quiescent (fst (_applyStateDiff st)).
Proof.
  unfold quiescent.
  induction st as [|[k s] rest IH]; simpl; [constructor|].
  destruct (_applyStateDiff rest) as [kept calls]. simpl in IH.
  destruct (changed s); simpl.
  - constructor; [split; reflexivity | exact IH].
  - destruct (touched s); simpl; [|exact IH].
    constructor; [split; reflexivity | exact IH].
Qed.

Lemma applied_In k state' st :
  In (k, state') (fst (_applyStateDiff st)) ->
  exists state, In (k, state) st /\ kept_entry state = true /\
                state' = reset_state state.
Proof.
  induction st as [|[k0 s0] rest IH]; simpl; [intros []|].
  destruct (_applyStateDiff rest) as [kept calls]. simpl in IH.
  unfold kept_entry.
  destruct (changed s0) eqn:Hc; simpl.
  - intros [[= <- <-]|Hin].
    + exists s0. rewrite Hc. auto.
    + destruct (IH Hin) as (s & Hs & Hkeep & Hreset). exists s. auto.
  - destruct (touched s0) eqn:Ht; simpl.
    + intros [[= <- <-]|Hin].
      * exists s0. rewrite Hc, Ht. auto.
      * destruct (IH Hin) as (s & Hs & Hkeep & Hreset). exists s. auto.
    + intros Hin. destruct (IH Hin) as (s & Hs & Hkeep & Hreset). exists s. auto.
Qed.

Lemma applied_keys k st :
  In k (map fst (fst (_applyStateDiff st))) -> In k (map fst st).
Proof.
  intros Hin. apply in_map_iff in Hin. destruct Hin as ([k' s'] & <- & Hin).
  destruct (applied_In k' s' st Hin) as (s & Hs & _).
  apply in_map_iff. exists (k', s). auto.
Qed.

Lemma is_map_applied st : is_map st -> is_map (fst (_applyStateDiff st)).
Proof.
  unfold is_map.
  induction st as [|[k s] rest IH]; simpl; [auto|].
  intros Hmap. apply NoDup_cons in Hmap. destruct Hmap as [Hk Hrest].
  specialize (IH Hrest).
  assert (Hk' : ~ In k (map fst (fst (_applyStateDiff rest)))).
  { intros Hin. apply Hk, list_elem_of_In, applied_keys, Hin. }
  destruct (_applyStateDiff rest) as [kept calls]. simpl in IH, Hk'.
  destruct (changed s); simpl.
  - apply NoDup_cons. split; [rewrite list_elem_of_In; exact Hk' | exact IH].
  - destruct (touched s); simpl; [|exact IH].
    apply NoDup_cons. split; [rewrite list_elem_of_In; exact Hk' | exact IH].
Qed.

Lemma find_state_applied k st :
  is_map st ->
  find_state k (fst (_applyStateDiff st))
  = match find_state k st with
    | Some state => if kept_entry state then Some (reset_state state) else None
    | None => None
    end.
Proof.
  unfold is_map, kept_entry.
  induction st as [|[k0 s0] rest IH]; simpl; [reflexivity|].
  intros Hmap. apply NoDup_cons in Hmap. destruct Hmap as [Hk Hrest].
  specialize (IH Hrest).
  assert (Hk' : ~ In k0 (map fst (fst (_applyStateDiff rest)))).
  { intros Hin. apply Hk, list_elem_of_In, applied_keys, Hin. }
  destruct (_applyStateDiff rest) as [kept calls]. simpl in IH, Hk'.
  destruct (decide (k0 = k)) as [->|Hne].
  - destruct (changed s0); simpl.
    + destruct (decide (k = k)); [reflexivity | contradiction].
    + destruct (touched s0); simpl.
      * destruct (decide (k = k)); [reflexivity | contradiction].
      * apply find_state_None, Hk'.
  - destruct (changed s0); simpl.
    + destruct (decide (k0 = k)); [contradiction | exact IH].
    + destruct (touched s0); simpl; [|exact IH].
      destruct (decide (k0 = k)); [contradiction | exact IH].
Qed.

(** X21: after every [ngDoCheck] the bookkeeping flags are reset: each
    entry left in the state map has [changed] and [touched] false,
    whatever the state map was before. *)
Theorem ngDoCheck_resets_flags (d : NgClass) :
  Forall (fun entry => changed (snd entry) = false /\ touched (snd entry) = false)
    (stateMap (ngDoCheck d)).
Proof. rewrite ngDoCheck_unfold. simpl. apply applied_quiescent. Qed.

(** *** The state map after the [_updateState] calls of the bindings *)

Lemma touch_state_enabled (b : bool) (state : CssClassState) :
  enabled (touch_state b state) = b /\ touched (touch_state b state) = true.
Proof.
  unfold touch_state. destruct state as [e c t], e, b; simpl; split; reflexivity.
Qed.

Lemma find_state_update_all_other k updates st :
  ~ In k (map fst updates) ->
  find_state k (update_all updates st) = find_state k st.
Proof.
  revert st. induction updates as [|[k0 b0] updates IH]; intros st Hk; simpl.
  - reflexivity.
  - rewrite IH by (intros Hin; apply Hk; right; exact Hin).
    rewrite find_state_update.
    destruct (decide (k = k0)) as [->|Hne]; [|reflexivity].
    exfalso. apply Hk. left. reflexivity.
Qed.

(** An entry that holds [b] and is touched stays so through updates that
    bind its class to [b] only. *)
Lemma find_state_update_all_settled k (b : bool) updates st state :
  find_state k st = Some state ->
  enabled state = b -> touched state = true ->
  (forall b', In (k, b') updates -> b' = b) ->
  exists state',
    find_state k (update_all updates st) = Some state' /\
    enabled state' = b /\ touched state' = true.
Proof.
  revert st state. induction updates as [|[k0 b0] updates IH];
    intros st state Hfind Henabled Htouched Honly; simpl.
  - exists state. auto.
  - assert (Hstep : exists state1,
              find_state k (_updateState k0 b0 st) = Some state1 /\
              enabled state1 = b /\ touched state1 = true).
    { rewrite find_state_update.
      destruct (decide (k = k0)) as [->|Hne].
      - rewrite Hfind. eexists. split; [reflexivity|].
        rewrite (Honly b0) by (left; reflexivity).
        apply touch_state_enabled.
      - exists state. auto. }
    destruct Hstep as (state1 & Hfind1 & Henabled1 & Htouched1).
    apply (IH _ state1 Hfind1 Henabled1 Htouched1).
    intros b' Hin. apply Honly. right. exact Hin.
Qed.

Lemma find_state_update_all k (b : bool) updates st :
  consistent updates ->
  In (k, b) updates ->
  exists state,
    find_state k (update_all updates st) = Some state /\
    enabled state = b /\ touched state = true.
Proof.
  revert st. induction updates as [|[k0 b0] updates IH]; intros st Hcons Hin; simpl.
  - destruct Hin.
  - destruct Hin as [[= -> ->]|Hin].
    + assert (Hhead : exists state1,
                find_state k (_updateState k b st) = Some state1 /\
                enabled state1 = b /\ touched state1 = true).
      { rewrite find_state_update.
        destruct (decide (k = k)); [|contradiction].
        eexists. split; [reflexivity|].
        destruct (find_state k st); [apply touch_state_enabled | split; reflexivity]. }
      destruct Hhead as (state1 & Hfind1 & Henabled1 & Htouched1).
      apply (find_state_update_all_settled k b updates _ state1
               Hfind1 Henabled1 Htouched1).
      intros b' Hin'. apply (Hcons k b' b); [right; exact Hin' | left; reflexivity].
    + apply IH; [|exact Hin].
      intros k' b1 b2 H1 H2. apply (Hcons k' b1 b2); right; assumption.
Qed.

(** From a quiescent map, only the classes of the bindings are changed or
    touched by the updates. *)
Lemma update_all_marks_bound_only updates st :
  quiescent st ->
  Forall (fun entry => kept_entry (snd entry) = true ->
                       In (fst entry) (map fst updates))
    (update_all updates st).
Proof.
  intros Hq.
  assert (Hgen : forall (ks : list (list N)) us st',
            incl (map fst us) ks ->
            Forall (fun entry => kept_entry (snd entry) = true -> In (fst entry) ks) st' ->
            Forall (fun entry => kept_entry (snd entry) = true -> In (fst entry) ks)
              (update_all us st')).
  { intros ks us. induction us as [|[k0 b0] us IH]; intros st' Hincl Hst'; simpl.
    - exact Hst'.
    - apply IH.
      + intros x Hx. apply Hincl. right. exact Hx.
      + apply Forall_update; [exact Hst'|].
        intros state _. apply Hincl. left. reflexivity. }
  apply Hgen; [apply incl_refl|].
  eapply Forall_impl; [exact Hq|].
  intros [k state] [Hc Ht]. unfold kept_entry. simpl in *. rewrite Hc, Ht.
  discriminate.
Qed.

(** *** A second check with the same, consistent bindings *)

Lemma update_is_touch k (b : bool) st state :
  find_state k st = Some state -> enabled state = b ->
  _updateState k b st = touch_first k st.
Proof.
  induction st as [|[k0 s0] rest IH]; simpl; [discriminate|].
  destruct (decide (k0 = k)) as [->|Hne].
  - intros [= ->] <-. unfold touch_state, mark_touched.
    rewrite Bool.eqb_reflx. reflexivity.
  - intros Hfind Henabled. rewrite (IH Hfind Henabled). reflexivity.
Qed.

Lemma find_state_touch_first k k0 st state :
  find_state k st = Some state ->
  exists state', find_state k (touch_first k0 st) = Some state' /\
                 enabled state' = enabled state.
Proof.
  induction st as [|[k1 s1] rest IH]; simpl; [discriminate|].
  destruct (decide (k1 = k0)) as [->|Hne]; simpl.
  - destruct (decide (k0 = k)) as [->|Hne'].
    + intros [= ->]. eexists. split; reflexivity.
    + intros Hfind. exists state. auto.
  - destruct (decide (k1 = k)) as [->|Hne'].
    + intros [= ->]. eexists. split; reflexivity.
    + exact IH.
Qed.

Lemma update_all_is_touch updates st :
  (forall k b, In (k, b) updates ->
     exists state, find_state k st = Some state /\ enabled state = b) ->
  update_all updates st = fold_left (fun st' k => touch_first k st') (map fst updates) st.
Proof.
  revert st. induction updates as [|[k0 b0] updates IH]; intros st Hst; simpl.
  - reflexivity.
  - destruct (Hst k0 b0) as (state0 & Hfind0 & Henabled0); [left; reflexivity|].
    rewrite (update_is_touch k0 b0 st state0 Hfind0 Henabled0).
    apply IH. intros k b Hin.
    destruct (Hst k b) as (state & Hfind & Henabled); [right; exact Hin|].
    destruct (find_state_touch_first k k0 st state Hfind) as (state' & Hfind' & Hsame).
    exists state'. split; [exact Hfind' | congruence].
Qed.

Lemma touch_first_absent k st : ~ In k (map fst st) -> touch_first k st = st.
Proof.
  induction st as [|[k0 s0] rest IH]; simpl; [reflexivity|].
  intros Hk. destruct (decide (k0 = k)) as [->|Hne].
  - exfalso. apply Hk. left. reflexivity.
  - rewrite IH; [reflexivity|]. intros Hin. apply Hk. right. exact Hin.
Qed.

Lemma touch_all_cons (ks : list (list N)) k state st :
  ~ In k (map fst st) ->
  fold_left (fun st' k' => touch_first k' st') ks ((k, state) :: st)
  = (k, if decide (k ∈ ks) then mark_touched state else state)
    :: fold_left (fun st' k' => touch_first k' st') ks st.
Proof.
  revert state st. induction ks as [|k0 ks IH]; intros state st Hk; cbn [fold_left].
  - destruct (decide (k ∈ [])) as [Hin|_]; [|reflexivity].
    apply elem_of_nil in Hin. destruct Hin.
  - cbn [touch_first]. destruct (decide (k = k0)) as [->|Hne].
    + rewrite (IH _ _ Hk), (touch_first_absent k0 st Hk).
      destruct (decide (k0 ∈ k0 :: ks)) as [_|Hn];
        [|exfalso; apply Hn, elem_of_cons; left; reflexivity].
      destruct (decide (k0 ∈ ks)); reflexivity.
    + assert (Hk' : ~ In k (map fst (touch_first k0 st))).
      { clear IH. induction st as [|[k1 s1] rest IHst]; simpl in *; [tauto|].
        destruct (decide (k1 = k0)); simpl; tauto. }
      rewrite (IH _ _ Hk').
      destruct (decide (k ∈ ks)) as [Hin|Hnin];
        destruct (decide (k ∈ k0 :: ks)) as [Hin'|Hnin']; try reflexivity.
      * exfalso. apply Hnin', elem_of_cons. right. exact Hin.
      * exfalso. apply elem_of_cons in Hin'.
        destruct Hin' as [->|Hin']; [apply Hne; reflexivity | auto].
Qed.

(** Touching every entry of a quiescent map and applying the diff makes no
    renderer call and gives the map back. *)
Lemma applied_touch_all (ks : list (list N)) st :
  is_map st -> quiescent st ->
  (forall k, In k (map fst st) -> In k ks) ->
  _applyStateDiff (fold_left (fun st' k => touch_first k st') ks st) = (st, []).
Proof.
  unfold is_map, quiescent.
  induction st as [|[k state] rest IH]; intros Hmap Hq Hks.
  - clear. induction ks as [|k0 ks IHk]; simpl; [reflexivity | exact IHk].
  - simpl in Hmap. apply NoDup_cons in Hmap. destruct Hmap as [Hk Hrest].
    rewrite list_elem_of_In in Hk.
    apply Forall_cons in Hq. destruct Hq as [[Hc Ht] Hq]. simpl in Hc, Ht.
    rewrite (touch_all_cons ks k state rest Hk).
    cbn [_applyStateDiff].
    rewrite (IH Hrest Hq) by (intros k' Hin; apply Hks; right; exact Hin).
    destruct (decide (k ∈ ks)) as [_|Hn];
      [|exfalso; apply Hn, list_elem_of_In, Hks; left; reflexivity].
    destruct state as [e c t]. simpl in *. subst c t. reflexivity.
Qed.

(** The state map after a check from a well-formed, quiescent map. *)
Lemma checked_map_settled updates st :
  is_map st -> quiescent st -> consistent updates ->
  let st1 := fst (_applyStateDiff (update_all updates st)) in
  is_map st1 /\ quiescent st1 /\
  (forall k, In k (map fst st1) -> In k (map fst updates)) /\
  (forall k b, In (k, b) updates ->
     exists state, find_state k st1 = Some state /\ enabled state = b).
Proof.
  intros Hmap Hq Hcons. cbv zeta.
  pose proof (is_map_update_all updates st Hmap) as Hmap2.
  split; [apply is_map_applied, Hmap2|].
  split; [apply applied_quiescent|].
  split.
  - intros k Hin. apply in_map_iff in Hin. destruct Hin as ([k' s'] & <- & Hin).
    destruct (applied_In k' s' _ Hin) as (s & Hs & Hkept & _).
    pose proof (update_all_marks_bound_only updates st Hq) as Hmarks.
    rewrite Forall_forall in Hmarks.
    apply (Hmarks (k', s)); [apply list_elem_of_In, Hs | exact Hkept].
  - intros k b Hin.
    destruct (find_state_update_all k b updates st Hcons Hin)
      as (state & Hfind & Henabled & Htouched).
    rewrite (find_state_applied k _ Hmap2), Hfind.
    unfold kept_entry. rewrite Htouched, orb_true_r.
    exists (reset_state state). split; [reflexivity | exact Henabled].
Qed.

Lemma second_check_is_silent (d : NgClass) :
  is_map (stateMap d) -> quiescent (stateMap d) -> consistent (bindings d) ->
  ngDoCheck (ngDoCheck d) = ngDoCheck d.
Proof.
  intros Hmap Hq Hcons.
  destruct (checked_map_settled (bindings d) (stateMap d) Hmap Hq Hcons)
    as (Hmap1 & Hq1 & Hkeys1 & Hbound1).
  rewrite (ngDoCheck_unfold d).
  set (st1 := fst (_applyStateDiff (update_all (bindings d) (stateMap d)))) in *.
  set (calls1 := renderer_calls d
                 ++ snd (_applyStateDiff (update_all (bindings d) (stateMap d)))).
  rewrite ngDoCheck_unfold.
  cbn [initialClasses rawClass stateMap renderer_calls].
  replace (bindings (mkNgClass (initialClasses d) (rawClass d) st1 calls1))
    with (bindings d) by reflexivity.
  rewrite (update_all_is_touch (bindings d) st1 Hbound1).
  rewrite (applied_touch_all _ st1 Hmap1 Hq1 Hkeys1).
  cbn [fst snd]. rewrite app_nil_r. reflexivity.
Qed.

(** *** Directives that the framework can produce *)

Lemma ngClass_run_invariant (ops : list NgClassOp) :
  is_map (stateMap (ngClass_run ops)) /\ quiescent (stateMap (ngClass_run ops)).
Proof.
  unfold ngClass_run.
  assert (Hgen : forall d,
            is_map (stateMap d) /\ quiescent (stateMap d) ->
            is_map (stateMap (fold_left ngClass_step ops d)) /\
            quiescent (stateMap (fold_left ngClass_step ops d))).
  { induction ops as [|o ops IH]; intros d Hd; simpl; [exact Hd|].
    apply IH. destruct Hd as [Hmap Hq].
    destruct o as [value|value|]; simpl; [auto | auto |].
    rewrite ngDoCheck_unfold. simpl.
    split; [apply is_map_applied, is_map_update_all, Hmap | apply applied_quiescent]. }
  apply Hgen. split; [constructor | constructor].
Qed.

(** X22: no unnecessary DOM manipulation.  For a directive in any state
    the framework can bring it to, if the current bindings do not bind one
    class name to two different values, a second [ngDoCheck] right after
    the first makes no renderer call and leaves the state map as it is:
    checking twice is checking once. *)
Theorem second_ngDoCheck_does_nothing (ops : list NgClassOp) :
  consistent (bindings (ngClass_run ops)) ->
  ngDoCheck (ngDoCheck (ngClass_run ops)) = ngDoCheck (ngClass_run ops).
Proof.
  intros Hcons. destruct (ngClass_run_invariant ops) as [Hmap Hq].
  apply second_check_is_silent; assumption.
Qed.

(** *** A class that left the bindings *)

Lemma applied_removes k state st :
  In (k, state) st ->
  changed state = false -> touched state = false -> enabled state = true ->
  exists before after,
    snd (_applyStateDiff st) = before ++ _toggleClass k false ++ after.
Proof.
  intros Hin Hc Ht He.
  induction st as [|[k0 s0] rest IH]; simpl; [destruct Hin|].
  destruct Hin as [[= -> ->]|Hin].
  - destruct (_applyStateDiff rest) as [kept calls].
    rewrite Hc, Ht, He. simpl. exists [], calls. reflexivity.
  - destruct (IH Hin) as (before & after & Hcalls).
    destruct (_applyStateDiff rest) as [kept calls]. simpl in Hcalls. subst calls.
    destruct (changed s0); simpl.
    + exists (_toggleClass k0 (enabled s0) ++ before), after.
      rewrite <- app_assoc. reflexivity.
    + destruct (touched s0); simpl.
      * exists before, after. reflexivity.
      * exists ((if enabled s0 then _toggleClass k0 false else []) ++ before), after.
        rewrite <- app_assoc. reflexivity.
Qed.

(** X23: a class that is no longer bound is removed.  If a class is
    enabled in the state map of a directive the framework can produce,
    and the current bindings do not mention it, then [ngDoCheck] calls
    [removeClass] for each of its names and drops its entry from the
    state map. *)
Theorem unbound_class_is_removed (ops : list NgClassOp) k (state : CssClassState) :
  find_state k (stateMap (ngClass_run ops)) = Some state ->
  enabled state = true ->
  ~ In k (map fst (bindings (ngClass_run ops))) ->
  find_state k (stateMap (ngDoCheck (ngClass_run ops))) = None /\
  exists before after,
    renderer_calls (ngDoCheck (ngClass_run ops))
    = renderer_calls (ngClass_run ops) ++ before ++ _toggleClass k false ++ after.
Proof.
  intros Hfind He Hunbound.
  destruct (ngClass_run_invariant ops) as [Hmap Hq].
  set (d := ngClass_run ops) in *.
  assert (Hflags : changed state = false /\ touched state = false).
  { unfold quiescent in Hq. rewrite Forall_forall in Hq.
    apply (Hq (k, state)), list_elem_of_In, find_state_In, Hfind. }
  destruct Hflags as [Hc Ht].
  pose proof (find_state_update_all_other k (bindings d) (stateMap d) Hunbound)
    as Hfind2.
  rewrite Hfind in Hfind2.
  rewrite ngDoCheck_unfold. cbn [stateMap renderer_calls].
  split.
  - rewrite (find_state_applied k _ (is_map_update_all _ _ Hmap)), Hfind2.
    unfold kept_entry. rewrite Hc, Ht. reflexivity.
  - destruct (applied_removes k state _ (find_state_In _ _ _ Hfind2) Hc Ht He)
      as (before & after & Hcalls).
    exists before, after. rewrite Hcalls. reflexivity.
Qed.

(** *** The first check *)

Lemma find_state_app k st1 st2 :
  find_state k (st1 ++ st2)
  = match find_state k st1 with
    | Some state => Some state
    | None => find_state k st2
    end.
Proof.
  induction st1 as [|[k0 s0] rest IH]; simpl; [reflexivity|].
  destruct (decide (k0 = k)); [reflexivity | exact IH].
Qed.

Lemma update_absent k (b : bool) st :
  find_state k st = None ->
  _updateState k b st = st ++ [(k, mkCssClassState b true true)].
Proof.
  induction st as [|[k0 s0] rest IH]; simpl; [reflexivity|].
  destruct (decide (k0 = k)); [discriminate|].
  intros Hfind. rewrite (IH Hfind). reflexivity.
Qed.

Lemma update_all_fresh updates st :
  NoDup (map fst updates) ->
  (forall k, In k (map fst updates) -> find_state k st = None) ->
  update_all updates st
  = st ++ map (fun u => (fst u, mkCssClassState (snd u) true true)) updates.
Proof.
  revert st. induction updates as [|[k0 b0] updates IH]; intros st Hnodup Hfresh;
    simpl.
  - rewrite app_nil_r. reflexivity.
  - simpl in Hnodup. apply NoDup_cons in Hnodup. destruct Hnodup as [Hk0 Hnodup].
    rewrite (update_absent k0 b0 st) by (apply Hfresh; left; reflexivity).
    rewrite (IH _ Hnodup).
    + rewrite <- app_assoc. reflexivity.
    + intros k Hin. rewrite find_state_app, (Hfresh k) by (right; exact Hin).
      simpl. destruct (decide (k0 = k)) as [->|_]; [|reflexivity].
      exfalso. apply Hk0, list_elem_of_In, Hin.
Qed.

Lemma applied_fresh updates :
  _applyStateDiff (map (fun u => (fst u, mkCssClassState (snd u) true true)) updates)
  = (map (fun u => (fst u, mkCssClassState (snd u) false false)) updates,
     flat_map (fun u => _toggleClass (fst u) (snd u)) updates).
Proof.
  induction updates as [|[k b] updates IH]; simpl; [reflexivity|].
  rewrite IH. reflexivity.
Qed.

(** X24: the first check renders the bindings.  For a directive whose
    state map is still empty and whose bindings name each class once,
    [ngDoCheck] makes, binding by binding and in order, the [addClass]
    calls of the classes bound to a truthy value and the [removeClass]
    calls of those bound to a falsy one, and records each class with its
    value and both flags reset. *)
Theorem first_ngDoCheck_renders_the_bindings (d : NgClass) :
  stateMap d = [] ->
  NoDup (map fst (bindings d)) ->
  ngDoCheck d
  = mkNgClass (initialClasses d) (rawClass d)
      (map (fun u => (fst u, mkCssClassState (snd u) false false)) (bindings d))
      (renderer_calls d
       ++ flat_map (fun u => _toggleClass (fst u) (snd u)) (bindings d)).
Proof.
  intros Hempty Hnodup.
  rewrite ngDoCheck_unfold, Hempty.
  rewrite (update_all_fresh (bindings d) [] Hnodup) by reflexivity.
  simpl. rewrite applied_fresh. reflexivity.
Qed.

Lemma drop_whitespace_blank (value : list N) :
  Forall (fun c => is_whitespace c = true) value -> drop_whitespace value = [].
Proof.
  intros Hblank. induction Hblank as [|c value Hc Hblank IH]; simpl; [reflexivity|].
  rewrite Hc. exact IH.
Qed.

(** X25: a class attribute that is empty or all white space makes no
    renderer call.  Its [klass] setter yields the single empty name, and
    the first [ngDoCheck] of such a directive records an entry for the
    empty name but calls neither [addClass] nor [removeClass]. *)
Theorem blank_class_attribute_renders_nothing (value : list N) :
  Forall (fun c => is_whitespace c = true) value ->
  initialClasses (set_klass (Some value) new_NgClass) = [[]] /\
  ngDoCheck (set_klass (Some value) new_NgClass)
  = mkNgClass [[]] ClassNullish [([], mkCssClassState true false false)] [].
Proof.
  intros Hblank.
  assert (Htrim : trim value = []).
  { unfold trim. rewrite (drop_whitespace_blank value Hblank). reflexivity. }
  unfold set_klass, ngDoCheck. cbn [initialClasses rawClass stateMap renderer_calls].
  rewrite Htrim. split; reflexivity.
Qed.
End NgClassStates.

(** ** The further properties at concrete inputs *)

Section InjectionScopingExamples.
Import Injection InjectionSamples.

Lemma assert_passes_inside_runInInjectionContext_witness :
  guard_passes live_injector = true /\
  runInInjectionContext live_injector (assertInInjectionContext inject_fn) bare_context
  = (bare_context, Returned tt).
Proof.
  split; [reflexivity|].
  apply (assert_passes_inside_runInInjectionContext live_injector inject_fn
           bare_context eq_refl).
Defined.

Lemma assert_fails_after_runInInjectionContext_witness :
  guard_passes live_injector = true /\
  injector_truthy (currentInjector bare_context) = false /\
  injectImplementation bare_context = None /\
  snd (counting_fn (installed live_injector bare_context)) = Returned 7%nat /\
  exists message,
    snd ((runInInjectionContext live_injector counting_fn ;;
          assertInInjectionContext inject_fn) bare_context)
    = Threw (RuntimeError MISSING_INJECTION_CONTEXT message).
Proof.
  split; [reflexivity|]. split; [reflexivity|]. split; [reflexivity|].
  split; [reflexivity|].
  apply (assert_fails_after_runInInjectionContext live_injector counting_fn inject_fn
           bare_context 7%nat eq_refl eq_refl eq_refl eq_refl).
Defined.

Lemma runInInjectionContext_nests_witness :
  guard_passes live_injector = true /\
  guard_passes (mkInjector 9 false false) = true /\
  runInInjectionContext live_injector
    (during <- runInInjectionContext (mkInjector 9 false false) getCurrentInjector ;;
     after <- getCurrentInjector ;;
     ret (during, after)) bare_context
  = (bare_context,
     Returned (SlotInjector (mkInjector 9 false false), SlotInjector live_injector)).
Proof.
  split; [reflexivity|]. split; [reflexivity|].
  apply (runInInjectionContext_nests live_injector (mkInjector 9 false false)
           bare_context eq_refl eq_refl).
Defined.
End InjectionScopingExamples.

Section SignalExtraExamples.
Import Signals SignalSamples SignalFrameSamples.

Lemma five_node_there : nodes five !! 0%nat = Some five_node.
Proof. vm_compute. reflexivity. Qed.

Lemma update_rethrows_updater_error_witness :
  nodes five !! 0%nat = Some five_node /\
  producerUpdatesAllowed five = true /\
  failing_updater (value five_node) (outside five) = (1%nat, Threw (UserThrown 7)) /\
  snd (WritableSignalImpl.update 0%nat failing_updater five) = Threw (UserThrown 7) /\
  nodes (fst (WritableSignalImpl.update 0%nat failing_updater five)) = nodes five.
Proof.
  split; [exact five_node_there|]. split; [reflexivity|]. split; [reflexivity|].
  destruct (update_rethrows_updater_error 0%nat failing_updater five five_node
              1%nat (UserThrown 7) five_node_there eq_refl eq_refl)
    as (Hthrown & Hnodes & _).
  split; [exact Hthrown | exact Hnodes].
Defined.

Lemma mutate_rethrows_mutator_error_witness :
  nodes five !! 0%nat = Some five_node /\
  producerUpdatesAllowed five = true /\
  failing_mutator (value five_node) (outside five)
  = (8, 1%nat, Threw (UserThrown 7)) /\
  snd (WritableSignalImpl.mutate 0%nat failing_mutator five) = Threw (UserThrown 7) /\
  nodes (fst (WritableSignalImpl.mutate 0%nat failing_mutator five)) !! 0%nat
  = Some (with_value 8 five_node).
Proof.
  split; [exact five_node_there|]. split; [reflexivity|]. split; [reflexivity|].
  destruct (mutate_rethrows_mutator_error 0%nat failing_mutator five five_node 8
              1%nat (UserThrown 7) five_node_there eq_refl eq_refl)
    as (Hthrown & Hnode & _).
  split; [exact Hthrown | exact Hnode].
Defined.

Lemma five_failing_hook_node : nodes five_failing_hook !! 0%nat = Some five_node.
Proof. vm_compute. reflexivity. Qed.

Lemma set_keeps_write_when_hook_throws_witness :
  nodes five_failing_hook !! 0%nat = Some five_node /\
  producerUpdatesAllowed five_failing_hook = true /\
  equal five_node (value five_node) 6 = false /\
  postSignalSetFn five_failing_hook = Some failing_hook /\
  failing_hook (outside five_failing_hook) = (1%nat, Threw (UserThrown 9)) /\
  snd (WritableSignalImpl.set 0%nat 6 five_failing_hook) = Threw (UserThrown 9) /\
  nodes (fst (WritableSignalImpl.set 0%nat 6 five_failing_hook)) !! 0%nat
  = Some (bump_valueVersion (with_value 6 five_node)).
Proof.
  split; [exact five_failing_hook_node|]. split; [reflexivity|].
  split; [reflexivity|]. split; [reflexivity|]. split; [reflexivity|].
  destruct (set_keeps_write_when_hook_throws 0%nat 6 five_failing_hook five_node
              failing_hook 1%nat (UserThrown 9) five_failing_hook_node
              eq_refl eq_refl eq_refl eq_refl)
    as (Hthrown & Hnode & _).
  split; [exact Hthrown | exact Hnode].
Defined.

Lemma set_again_changes_nothing_witness :
  nodes five !! 0%nat = Some five_node /\
  equal five_node 6 6 = true /\
  WritableSignalImpl.set 0%nat 6 five
  = (fst (WritableSignalImpl.set 0%nat 6 five), Returned tt) /\
  WritableSignalImpl.set 0%nat 6 (fst (WritableSignalImpl.set 0%nat 6 five))
  = (fst (WritableSignalImpl.set 0%nat 6 five), Returned tt).
Proof.
  split; [exact five_node_there|]. split; [reflexivity|]. split; [reflexivity|].
  apply (set_again_changes_nothing 0%nat 6 five five_node
           (fst (WritableSignalImpl.set 0%nat 6 five)) five_node_there
           eq_refl eq_refl).
Defined.

Lemma installed_hook_runs_after_write_witness :
  nodes five !! 0%nat = Some five_node /\
  producerUpdatesAllowed five = true /\
  equal five_node (value five_node) 6 = false /\
  outside (fst ((setPostSignalSetFn (Some counting_hook) ;;
                 WritableSignalImpl.set 0%nat 6) five))
  = fst (counting_hook (outside five)).
Proof.
  split; [exact five_node_there|]. split; [reflexivity|]. split; [reflexivity|].
  destruct (installed_hook_runs_after_write 0%nat 6 five five_node counting_hook
              five_node_there eq_refl) as (_ & Hstored & _).
  exact (proj2 (Hstored eq_refl)).
Defined.

Lemma versions_never_decrease_witness :
  nodes five !! 0%nat = Some five_node /\
  exists this',
    nodes (run_ops [OpSet 0%nat 6; OpMutate 0%nat touch; OpAsReadonly 0%nat] five)
      !! 0%nat = Some this' /\
    equal this' = equal five_node /\
    valueVersion five_node <= valueVersion this'.
Proof.
  split; [exact five_node_there|].
  apply (versions_never_decrease
           [OpSet 0%nat 6; OpMutate 0%nat touch; OpAsReadonly 0%nat]
           five 0%nat five_node five_node_there).
Defined.
End SignalExtraExamples.

Section HydrationExamples.
Import Hydration HydrationSamples.

Lemma located_views_cover_the_siblings_witness :
  (forall n, nth_sibling 0 n = n) /\
  (forall a b n, 0 <= a -> 0 <= b ->
     nth_sibling b (nth_sibling a n) = nth_sibling (a + b) n) /\
  fst (locateDehydratedViewsInContainer nth_sibling 10 three_rows) = 17.
Proof.
  assert (Hzero : forall n, nth_sibling 0 n = n)
    by (intros n; unfold nth_sibling; lia).
  assert (Hadd : forall a b n, 0 <= a -> 0 <= b ->
            nth_sibling b (nth_sibling a n) = nth_sibling (a + b) n)
    by (intros a b n _ _; unfold nth_sibling; lia).
  split; [exact Hzero|]. split; [exact Hadd|].
  rewrite (located_views_cover_the_siblings nth_sibling 10 three_rows Hzero Hadd).
  reflexivity.
Defined.

Lemma views_are_handed_out_in_order_witness :
  Forall (fun view : DehydratedContainerView Z => TEMPLATE_ID (data view) <> "")
    (snd (locateDehydratedViewsInContainer nth_sibling 10 three_rows)) /\
  find_each drop_all (enableFindMatchingDehydratedViewImpl AnswerNull)
    (map (fun view => TEMPLATE_ID (data view))
       (snd (locateDehydratedViewsInContainer nth_sibling 10 three_rows)))
    (mkLContainer
       (Some (snd (locateDehydratedViewsInContainer nth_sibling 10 three_rows) ++ []))
       tt)
  = (mkLContainer (Some []) tt,
     map Some (snd (locateDehydratedViewsInContainer nth_sibling 10 three_rows))).
Proof.
  assert (Hids : Forall (fun view : DehydratedContainerView Z =>
                           TEMPLATE_ID (data view) <> "")
                   (snd (locateDehydratedViewsInContainer nth_sibling 10 three_rows))).
  { vm_compute. repeat constructor; discriminate. }
  split; [exact Hids|].
  apply (views_are_handed_out_in_order drop_all _ [] tt Hids).
Defined.

Lemma located_views_are_found_again_witness :
  Forall (fun sv => TEMPLATE_ID sv <> "") three_rows /\
  fst (find_each drop_all (enableFindMatchingDehydratedViewImpl AnswerNull)
         (map TEMPLATE_ID (expanded three_rows))
         (mkLContainer
            (Some (snd (locateDehydratedViewsInContainer nth_sibling 10 three_rows)))
            tt))
  = mkLContainer (Some []) tt.
Proof.
  assert (Hids : Forall (fun sv => TEMPLATE_ID sv <> "") three_rows).
  { repeat constructor; discriminate. }
  split; [exact Hids|].
  rewrite (located_views_are_found_again nth_sibling drop_all 10 three_rows tt Hids).
  reflexivity.
Defined.

Lemma found_view_matches_the_template_witness :
  findMatchingDehydratedView drop_all FindMatchingDehydratedViewImpl
    (mkLContainer
       (Some [mkDehydratedContainerView (mkSerializedContainerView "t2" 1 None)
                (Some 16)]) tt)
    (Some "t2")
  = (mkLContainer (Some []) tt,
     Some (mkDehydratedContainerView (mkSerializedContainerView "t2" 1 None)
             (Some 16))) /\
  Some "t2" = Some (TEMPLATE_ID (mkSerializedContainerView "t2" 1 None)).
Proof.
  split; [reflexivity|].
  apply (found_view_matches_the_template drop_all FindMatchingDehydratedViewImpl
           (mkLContainer
              (Some [mkDehydratedContainerView (mkSerializedContainerView "t2" 1 None)
                       (Some 16)]) tt)
           (mkLContainer (Some []) tt) (Some "t2")
           (Some (mkDehydratedContainerView (mkSerializedContainerView "t2" 1 None)
                    (Some 16)))
           eq_refl).
Defined.
End HydrationExamples.

Section NgClassExamples.
Import NgClassDirective NgClassRuns NgClassSamples.

Lemma two_bindings_consistent : consistent (bindings (ngClass_run two_bindings)).
Proof.
  intros k b b' H1 H2. vm_compute in H1, H2.
  destruct H1 as [H1|[H1|[H1|[]]]]; destruct H2 as [H2|[H2|[H2|[]]]]; congruence.
Qed.

Lemma second_ngDoCheck_does_nothing_witness :
  consistent (bindings (ngClass_run two_bindings)) /\
  renderer_calls (ngDoCheck (ngDoCheck (ngClass_run two_bindings)))
  = renderer_calls (ngDoCheck (ngClass_run two_bindings)).
Proof.
  split; [exact two_bindings_consistent|].
  rewrite (second_ngDoCheck_does_nothing two_bindings two_bindings_consistent).
  reflexivity.
Defined.

Lemma unbound_class_is_removed_witness :
  find_state (js "a b") (stateMap (ngClass_run binding_withdrawn))
  = Some (mkCssClassState true false false) /\
  ~ In (js "a b") (map fst (bindings (ngClass_run binding_withdrawn))) /\
  find_state (js "a b") (stateMap (ngDoCheck (ngClass_run binding_withdrawn))) = None.
Proof.
  assert (Hunbound : ~ In (js "a b")
                       (map fst (bindings (ngClass_run binding_withdrawn)))).
  { vm_compute. intros []. }
  split; [reflexivity|]. split; [exact Hunbound|].
  apply (unbound_class_is_removed binding_withdrawn (js "a b")
           (mkCssClassState true false false) eq_refl eq_refl Hunbound).
Defined.

Lemma first_ngDoCheck_renders_the_bindings_witness :
  stateMap (ngClass_run two_bindings) = [] /\
  NoDup (map fst (bindings (ngClass_run two_bindings))) /\
  renderer_calls (ngDoCheck (ngClass_run two_bindings))
  = [AddClass (js "x"); AddClass (js "a"); AddClass (js "b"); RemoveClass (js "c")].
Proof.
  assert (Hnodup : NoDup (map fst (bindings (ngClass_run two_bindings)))).
  { vm_compute. repeat (apply NoDup_cons; split;
      [rewrite list_elem_of_In; simpl; intuition discriminate|]).
    apply NoDup_nil. exact I. }
  split; [reflexivity|]. split; [exact Hnodup|].
  rewrite (first_ngDoCheck_renders_the_bindings (ngClass_run two_bindings)
             eq_refl Hnodup).
  reflexivity.
Defined.

Lemma blank_class_attribute_renders_nothing_witness :
  Forall (fun c => is_whitespace c = true) (js "  ") /\
  renderer_calls (ngDoCheck (set_klass (Some (js "  ")) new_NgClass)) = [].
Proof.
  assert (Hblank : Forall (fun c => is_whitespace c = true) (js "  ")).
  { repeat constructor. }
  split; [exact Hblank|].
  rewrite (proj2 (blank_class_attribute_renders_nothing (js "  ") Hblank)).
  reflexivity.
Defined.
End NgClassExamples.

(** ** Properties of the style url extraction *)

Section StyleUrlFacts.
Import StyleUrls.
Variable evaluate : Expression -> ResolvedValue.

Section NestedInduction.
Variable P : Expression -> Prop.
Hypothesis P_array : forall node elements,
  List.Forall P elements -> P (ArrayLiteralExpression node elements).
Hypothesis P_spread : forall node expression,
  P expression -> P (SpreadElement node expression).
Hypothesis P_other : forall node, P (OtherExpression node).

Fixpoint Expression_nested_ind (e : Expression) : P e :=
  match e with
  | ArrayLiteralExpression node elements =>
      P_array node elements
        ((fix all (l : list Expression) : List.Forall P l :=
            match l with
            | [] => @List.Forall_nil Expression P
            | x :: l' =>
                @List.Forall_cons Expression P x l' (Expression_nested_ind x) (all l')
            end) elements)
  | SpreadElement node expression =>
      P_spread node expression (Expression_nested_ind expression)
  | OtherExpression node => P_other node
  end.
End NestedInduction.

Lemma extract_elements_acc
  (extract : Expression -> Outcome ValueHasWrongTypeError (list StyleUrlMeta))
  (elements : list Expression) (styleUrls : list StyleUrlMeta) :
  extract_elements evaluate extract elements styleUrls
  = match extract_elements evaluate extract elements [] with
    | Returned more => Returned (styleUrls ++ more)
    | Threw x => Threw x
    end.
Proof.
  revert styleUrls. induction elements as [|e elements IH]; intros styleUrls; simpl.
  - rewrite app_nil_r. reflexivity.
  - destruct e as [node els|node inner|node].
    + destruct (evaluate (ArrayLiteralExpression node els)); try reflexivity.
      rewrite (IH (styleUrls ++ _)), (IH [_]).
      destruct (extract_elements evaluate extract elements []); [|reflexivity].
      rewrite <- app_assoc. reflexivity.
    + destruct (extract inner) as [more|x]; [|reflexivity].
      rewrite (IH (styleUrls ++ _)), (IH more).
      destruct (extract_elements evaluate extract elements []); [|reflexivity].
      rewrite <- app_assoc. reflexivity.
    + destruct (evaluate (OtherExpression node)); try reflexivity.
      rewrite (IH (styleUrls ++ _)), (IH [_]).
      destruct (extract_elements evaluate extract elements []); [|reflexivity].
      rewrite <- app_assoc. reflexivity.
Qed.

Lemma extract_elements_app
  (extract : Expression -> Outcome ValueHasWrongTypeError (list StyleUrlMeta))
  (first second : list Expression) (styleUrls : list StyleUrlMeta) :
  extract_elements evaluate extract (first ++ second) styleUrls
  = match extract_elements evaluate extract first styleUrls with
    | Returned found => extract_elements evaluate extract second found
    | Threw x => Threw x
    end.
Proof.
  revert styleUrls. induction first as [|e first IH]; intros styleUrls; simpl.
  - reflexivity.
  - destruct e as [node els|node inner|node].
    + destruct (evaluate (ArrayLiteralExpression node els)); try reflexivity. apply IH.
    + destruct (extract inner) as [more|x]; [apply IH | reflexivity].
    + destruct (evaluate (OtherExpression node)); try reflexivity. apply IH.
Qed.

(** X26: an array literal is read element by element, and a spread
    element stands for what it spreads.  The urls of the literal
    [[...first, ...second]] are those of [first] followed by those of
    [second], the first error met being the error of the whole; and the
    literal [[...expression]] gives what [expression] gives. *)
Theorem style_urls_of_a_literal_concatenate (node node1 node2 node3 : nat)
  (first second : list Expression) (expression : Expression) :
  extractStyleUrlsFromExpression evaluate
    (ArrayLiteralExpression node (first ++ second))
  = match extractStyleUrlsFromExpression evaluate
            (ArrayLiteralExpression node1 first) with
    | Returned urls1 =>
        match extractStyleUrlsFromExpression evaluate
                (ArrayLiteralExpression node2 second) with
        | Returned urls2 => Returned (urls1 ++ urls2)
        | Threw x => Threw x
        end
    | Threw x => Threw x
    end /\
  extractStyleUrlsFromExpression evaluate
    (ArrayLiteralExpression node [SpreadElement node3 expression])
  = extractStyleUrlsFromExpression evaluate expression.
Proof.
  split.
  - cbn [extractStyleUrlsFromExpression]. rewrite extract_elements_app.
    destruct (extract_elements evaluate (extractStyleUrlsFromExpression evaluate)
                first []) as [urls1|x]; [|reflexivity].
    apply extract_elements_acc.
  - cbn [extractStyleUrlsFromExpression extract_elements].
    destruct (extractStyleUrlsFromExpression evaluate expression); reflexivity.
Qed.

Lemma strings_of_In (s : string) (elements : list ResolvedValue) :
  In s (strings_of elements) -> In (StringValue s) elements.
Proof.
  induction elements as [|v elements IH]; simpl; [tauto|].
  destruct v as [s'|l|]; simpl; [|tauto|tauto].
  intros [->|Hin]; [left; reflexivity | right; apply IH, Hin].
Qed.

Lemma extract_other_blames (e : Expression) (metas : list StyleUrlMeta) :
  (if negb (isStringArray (evaluate e))
   then Threw (mkValueHasWrongTypeError e (evaluate e)
                 "styleUrls must be an array of strings")
   else Returned
          (map (fun styleUrl => mkStyleUrlMeta styleUrl StylesheetFromDecorator e)
             (match evaluate e with
              | ArrayValue elements => strings_of elements
              | StringValue _ | OtherValue => []
              end))) = Returned metas ->
  List.Forall (blames_its_origin evaluate) metas.
Proof.
  destruct (evaluate e) as [s0|elements|] eqn:Hev; simpl; try discriminate.
  destruct (forallb is_string elements); simpl; [|discriminate].
  intros [= <-]. apply List.Forall_forall. intros meta Hin.
  apply in_map_iff in Hin. destruct Hin as (s0 & <- & Hin).
  split; [reflexivity|]. right. exists elements. simpl.
  split; [exact Hev | apply strings_of_In, Hin].
Qed.

Lemma extract_blames (e : Expression) :
  (forall metas,
     extractStyleUrlsFromExpression evaluate e = Returned metas ->
     List.Forall (blames_its_origin evaluate) metas) /\
  (forall node inner, e = SpreadElement node inner ->
     forall metas,
       extractStyleUrlsFromExpression evaluate inner = Returned metas ->
       List.Forall (blames_its_origin evaluate) metas).
Proof.
  induction e as [node elements IH|node inner IH|node] using Expression_nested_ind.
  - split; [|discriminate].
    cbn [extractStyleUrlsFromExpression].
    assert (Hgen : forall acc metas,
              List.Forall (blames_its_origin evaluate) acc ->
              extract_elements evaluate (extractStyleUrlsFromExpression evaluate)
                elements acc = Returned metas ->
              List.Forall (blames_its_origin evaluate) metas).
    { induction IH as [|e elements [He Hspread] _ IHels]; intros acc metas Hacc; simpl.
      - intros [= <-]. exact Hacc.
      - destruct e as [n els|n inner|n].
        + destruct (evaluate (ArrayLiteralExpression n els)) eqn:Hev; try discriminate.
          apply IHels. apply List.Forall_app. split; [exact Hacc|].
          constructor; [|constructor]. split; [reflexivity|]. left. exact Hev.
        + destruct (extractStyleUrlsFromExpression evaluate inner) as [more|x] eqn:Hin;
            [|discriminate].
          apply IHels. apply List.Forall_app. split; [exact Hacc|].
          apply (Hspread n inner eq_refl more Hin).
        + destruct (evaluate (OtherExpression n)) eqn:Hev; try discriminate.
          apply IHels. apply List.Forall_app. split; [exact Hacc|].
          constructor; [|constructor]. split; [reflexivity|]. left. exact Hev. }
    intros metas. apply Hgen. constructor.
  - destruct IH as [IHinner _]. split.
    + intros metas. cbn [extractStyleUrlsFromExpression]. apply extract_other_blames.
    + intros n i [= _ <-]. exact IHinner.
  - split; [|discriminate].
    intros metas. cbn [extractStyleUrlsFromExpression]. apply extract_other_blames.
Qed.

(** X27: every url extracted from a component's [styleUrls] is marked as
    coming from the decorator, and the node kept with it for diagnostics
    is one that the evaluator resolves to that very url, or to an array
    of strings that holds it.  A component without [styleUrls] has no
    urls. *)
Theorem extracted_style_urls_blame_their_origin (component : gmap string Expression)
  (metas : list StyleUrlMeta) :
  extractComponentStyleUrls evaluate component = Returned metas ->
  (component !! "styleUrls" = None -> metas = []) /\
  List.Forall
    (fun meta =>
       source meta = StylesheetFromDecorator /\
       (evaluate (nodeForError meta) = StringValue (url meta) \/
        exists elements,
          evaluate (nodeForError meta) = ArrayValue elements /\
          In (StringValue (url meta)) elements))
    metas.
Proof.
  unfold extractComponentStyleUrls.
  destruct (component !! "styleUrls") as [e|].
  - intros Hextract. split; [discriminate|].
    apply (proj1 (extract_blames e) metas Hextract).
  - intros [= <-]. split; [reflexivity | constructor].
Qed.

Lemma extract_other_error (e : Expression) (x : ValueHasWrongTypeError) :
  (if negb (isStringArray (evaluate e))
   then Threw (mkValueHasWrongTypeError e (evaluate e)
                 "styleUrls must be an array of strings")
   else Returned
          (map (fun styleUrl => mkStyleUrlMeta styleUrl StylesheetFromDecorator e)
             (match evaluate e with
              | ArrayValue elements => strings_of elements
              | StringValue _ | OtherValue => []
              end))) = Threw x ->
  error_value x = evaluate (error_node x) /\
  (error_message x = "styleUrl must be a string" /\ is_string (error_value x) = false \/
   error_message x = "styleUrls must be an array of strings" /\
   isStringArray (error_value x) = false).
Proof.
  destruct (isStringArray (evaluate e)) eqn:Harr; simpl; [discriminate|].
  intros [= <-]. simpl. split; [reflexivity|]. right. split; [reflexivity | exact Harr].
Qed.

Lemma extract_error (e : Expression) :
  (forall x,
     extractStyleUrlsFromExpression evaluate e = Threw x ->
     error_value x = evaluate (error_node x) /\
     (error_message x = "styleUrl must be a string" /\
      is_string (error_value x) = false \/
      error_message x = "styleUrls must be an array of strings" /\
      isStringArray (error_value x) = false)) /\
  (forall node inner, e = SpreadElement node inner ->
     forall x,
       extractStyleUrlsFromExpression evaluate inner = Threw x ->
       error_value x = evaluate (error_node x) /\
       (error_message x = "styleUrl must be a string" /\
        is_string (error_value x) = false \/
        error_message x = "styleUrls must be an array of strings" /\
        isStringArray (error_value x) = false)).
Proof.
  induction e as [node elements IH|node inner IH|node] using Expression_nested_ind.
  - split; [|discriminate].
    cbn [extractStyleUrlsFromExpression]. generalize (@nil StyleUrlMeta) as acc.
    induction IH as [|e elements [He Hspread] _ IHels]; intros acc x; simpl.
    + discriminate.
    + destruct e as [n els|n inner|n].
      * destruct (evaluate (ArrayLiteralExpression n els)) eqn:Hev.
        -- apply IHels.
        -- intros [= <-]. simpl. split; [symmetry; exact Hev|].
           left. split; reflexivity.
        -- intros [= <-]. simpl. split; [symmetry; exact Hev|].
           left. split; reflexivity.
      * destruct (extractStyleUrlsFromExpression evaluate inner) as [more|x'] eqn:Hin.
        -- apply IHels.
        -- intros [= <-]. apply (Hspread n inner eq_refl x' Hin).
      * destruct (evaluate (OtherExpression n)) eqn:Hev.
        -- apply IHels.
        -- intros [= <-]. simpl. split; [symmetry; exact Hev|].
           left. split; reflexivity.
        -- intros [= <-]. simpl. split; [symmetry; exact Hev|].
           left. split; reflexivity.
  - destruct IH as [IHinner _]. split.
    + intros x. cbn [extractStyleUrlsFromExpression]. apply extract_other_error.
    + intros n i [= _ <-]. exact IHinner.
  - split; [|discriminate].
    intros x. cbn [extractStyleUrlsFromExpression]. apply extract_other_error.
Qed.

(** X28: the error of a failed extraction names the culprit.  When the
    extraction throws, the value in the error is what the evaluator made
    of the node in the error, and that value is at fault: either it is an
    element of an array literal that is not a string, or it is what a
    non-literal expression resolved to and is not an array of strings. *)
Theorem style_url_error_names_the_culprit (styleUrlsExpr : Expression)
  (x : ValueHasWrongTypeError) :
  extractStyleUrlsFromExpression evaluate styleUrlsExpr = Threw x ->
  error_value x = evaluate (error_node x) /\
  (error_message x = "styleUrl must be a string" /\
   is_string (error_value x) = false \/
   error_message x = "styleUrls must be an array of strings" /\
   isStringArray (error_value x) = false).
Proof. apply (proj1 (extract_error styleUrlsExpr)). Qed.
End StyleUrlFacts.

Section StyleUrlExamples.
Import StyleUrls StyleUrlSamples.

Lemma extracted_style_urls_blame_their_origin_witness :
  extractComponentStyleUrls sample_evaluate
    (<["styleUrls" :=
         ArrayLiteralExpression 10
           [OtherExpression 1; SpreadElement 11 (OtherExpression 3)]]> ∅)
  = Returned
      [mkStyleUrlMeta "./a.css" StylesheetFromDecorator (OtherExpression 1);
       mkStyleUrlMeta "./c.css" StylesheetFromDecorator (OtherExpression 3);
       mkStyleUrlMeta "./d.css" StylesheetFromDecorator (OtherExpression 3)] /\
  List.Forall (fun meta => source meta = StylesheetFromDecorator)
    [mkStyleUrlMeta "./a.css" StylesheetFromDecorator (OtherExpression 1);
     mkStyleUrlMeta "./c.css" StylesheetFromDecorator (OtherExpression 3);
     mkStyleUrlMeta "./d.css" StylesheetFromDecorator (OtherExpression 3)].
Proof.
  assert (Hrun : extractComponentStyleUrls sample_evaluate
                   (<["styleUrls" :=
                        ArrayLiteralExpression 10
                          [OtherExpression 1; SpreadElement 11 (OtherExpression 3)]]> ∅)
                 = Returned
                     [mkStyleUrlMeta "./a.css" StylesheetFromDecorator (OtherExpression 1);
                      mkStyleUrlMeta "./c.css" StylesheetFromDecorator (OtherExpression 3);
                      mkStyleUrlMeta "./d.css" StylesheetFromDecorator (OtherExpression 3)])
    by (vm_compute; reflexivity).
  split; [exact Hrun|].
  eapply List.Forall_impl;
    [|exact (proj2 (extracted_style_urls_blame_their_origin sample_evaluate _ _ Hrun))].
  intros meta [Hsource _]. exact Hsource.
Defined.

Lemma style_url_error_names_the_culprit_witness :
  extractStyleUrlsFromExpression sample_evaluate bad_element
  = Threw (mkValueHasWrongTypeError (OtherExpression 4) OtherValue
             "styleUrl must be a string") /\
  OtherValue = sample_evaluate (OtherExpression 4).
Proof.
  split; [reflexivity|].
  apply (style_url_error_names_the_culprit sample_evaluate bad_element
           (mkValueHasWrongTypeError (OtherExpression 4) OtherValue
              "styleUrl must be a string") eq_refl).
Defined.
End StyleUrlExamples.
